(** * Kademlia routing table (routing_table.go): shallow embedding and properties

    The Go code is embedded as follows.
    - [big.Int] identifiers are [Z]; [net.TCPAddr] is a record of its three
      fields; a [container/list] list is a [list] whose head is [Front()];
      a [*list.Element] is a position in that list together with its value.
    - A [*KBucket] is an [option KBucket] ([None] is the nil pointer); the
      slice [kBuckets] is a list of such slots, indexed by a Go [int] ([Z])
      with the run-time bounds check written out.
    - A run-time panic (nil dereference, index out of range) and a [for] loop
      whose termination is not structural are results of the [outcome] monad.
    - The mutex field and the logger calls carry no state of the table and are
      left out. *)

From Stdlib Require Import ZArith Lia Strings.Byte Strings.String.
From stdpp Require Import base tactics option list numbers sorting.

Local Open Scope Z_scope.

(** ** Results of Go code that may panic or loop *)

Inductive panic : Set :=
| NilDereference
| IndexOutOfRange
| SliceBoundsOutOfRange.

Inductive outcome (A : Type) : Type :=
| Ret (a : A)
| Panic (p : panic)
| OutOfFuel.

Arguments Ret {A} a.
Arguments Panic {A} p.
Arguments OutOfFuel {A}.

Global Instance outcome_ret : MRet outcome := @Ret.

Global Instance outcome_bind : MBind outcome := λ A B f m,
  match m with
  | Ret a => f a
  | Panic p => Panic p
  | OutOfFuel => OutOfFuel
  end.

(** [s[i]] on a slice: panics when [i] is out of range. *)
Definition at_index {A} (s : list A) (i : Z) : outcome A :=
  if i <? 0 then Panic IndexOutOfRange
  else match s !! Z.to_nat i with
       | Some x => Ret x
       | None => Panic IndexOutOfRange
       end.

(** ** Contacts *)

Record TCPAddr : Type := mkTCPAddr {
  IP : list byte;
  Port : Z;
  Zone : string
}.

Record Contact : Type := mkContact {
  Id : Z;
  Addr : TCPAddr
}.

(** The zero value of [net.TCPAddr] and of [Contact]. *)
Definition zeroTCPAddr : TCPAddr := mkTCPAddr [] 0 EmptyString.
Definition zeroContact : Contact := mkContact 0 zeroTCPAddr.

(** [big.Int.Cmp]: -1, 0 or 1. *)
Definition Cmp (x y : Z) : Z :=
  match x ?= y with
  | Lt => -1
  | Eq => 0
  | Gt => 1
  end.

Definition AreEqualContacts (a b : Contact) : bool :=
  Cmp (Id a) (Id b) =? 0.

(** [big.Int.SetBytes]: big-endian. *)
Definition SetBytes (bs : list byte) : Z :=
  fold_left (λ acc b, acc * 256 + Z.of_N (Byte.to_N b)) bs 0.

(** [NewContact]: the identifier is the digest of the address, read
    big-endian. The digest, [sha1.Sum([]byte(addr.String()))], is library
    code and is a parameter here. *)
Definition NewContact (digest : TCPAddr → list byte) (addr : TCPAddr) : Contact :=
  mkContact (SetBytes (digest addr)) addr.

(** ** Buckets *)

Record KBucket : Type := mkKBucket {
  contacts : list Contact;
  bucket_k : Z;
  lruCache : list Contact
}.

Definition NewKBucket (k : Z) : KBucket :=
  mkKBucket [] k [].

(** A [*list.Element] of the contacts list. *)
Record Element : Type := mkElement {
  position : nat;
  Value : Contact
}.

Definition next (e : Element) : Element :=
  mkElement (S (position e)) (Value e).

(** [container/list] operations used by the bucket. *)
Definition MoveToFront (l : list Contact) (e : Element) : list Contact :=
  match l !! position e with
  | Some v => v :: delete (position e) l
  | None => l
  end.

Definition PushFront (l : list Contact) (c : Contact) : list Contact :=
  c :: l.

Definition Remove (l : list Contact) (e : Element) : list Contact :=
  delete (position e) l.

(** The loop of [getFromList], from [Front()] along [Next()]. *)
Fixpoint scanList (es : list Contact) (contact : Contact) : option Element :=
  match es with
  | [] => None
  | curr :: es' =>
      if AreEqualContacts curr contact then Some (mkElement 0%nat curr)
      else next <$> scanList es' contact
  end.

Definition getFromList (self : KBucket) (contact : Contact) : option Element :=
  scanList (contacts self) contact.

(** The loop of [getAllContacts]: [contacts[index] = curr; index++]. *)
Fixpoint fillContacts (es : list Contact) (out : list Contact) (index : nat)
  : outcome (list Contact) :=
  match es with
  | [] => Ret out
  | curr :: es' =>
      if (index <? length out)%nat
      then fillContacts es' (<[index := curr]> out) (S index)
      else Panic IndexOutOfRange
  end.

Definition getAllContacts (self : KBucket) : outcome (list Contact) :=
  fillContacts (contacts self) (replicate 20 zeroContact) 0%nat.

Definition addContact (self : KBucket) (contact : Contact) : KBucket * bool :=
  match getFromList self contact with
  | Some element =>
      (mkKBucket (MoveToFront (contacts self) element) (bucket_k self) (lruCache self),
       true)
  | None =>
      if Z.of_nat (length (contacts self)) <? bucket_k self
      then (mkKBucket (PushFront (contacts self) contact) (bucket_k self) (lruCache self),
            true)
      else (self, false)
  end.

Definition removeContact (self : KBucket) (contact : Contact) : KBucket * bool :=
  match getFromList self contact with
  | Some element =>
      (mkKBucket (Remove (contacts self) element) (bucket_k self) (lruCache self),
       true)
  | None => (self, false)
  end.

(** A method called through a [*KBucket]: the body dereferences [self]. *)
Definition through {A} (p : option KBucket) (m : KBucket → outcome A) : outcome A :=
  match p with
  | Some b => m b
  | None => Panic NilDereference
  end.

(** ** Identifiers, distance and the owner node *)

(** Modelled from the spec: the package constant [k], declared outside
    routing_table.go; "a protocol-wide replication/fan-out parameter,
    canonically 20" (the file itself builds every bucket with
    [NewKBucket(20)] and every snapshot with [make([]Contact, 20)]). *)
Definition k : nat := 20.

(** Modelled from the spec: [distanceBetween], declared outside
    routing_table.go; "distance(a, b): bitwise XOR of the two fixed-width
    identifiers". *)
Definition distanceBetween (a b : Z) : Z := Z.lxor a b.

(** [big.Int.Uint64]: the low 64 bits of the magnitude. *)
Definition Uint64 (x : Z) : Z := Z.land (Z.abs x) (Z.ones 64).

(** [float64(u)] for a [uint64] [u]: the value of the nearest double, ties to
    even. Every such double is an integer, so the value is given in [Z] and
    [<] on these doubles is [<] on [Z]. *)
Definition float64 (u : Z) : Z :=
  let e := Z.log2 u - 52 in
  if e <=? 0 then u
  else
    let q := Z.shiftr u e in
    let r := Z.land u (Z.ones e) in
    let half := Z.shiftl 1 (e - 1) in
    let q' := if (half <? r) || ((r =? half) && Z.odd q) then q + 1 else q in
    Z.shiftl q' e.

(** The owner [*Node] is declared outside routing_table.go. The table uses
    two of its methods only, so a node is taken as the pair of them and every
    statement below holds for whatever they compute. *)
Record Node : Type := mkNode {
  GetKBucketFromID : Z → Z;
  GetKBucketFromAddr : TCPAddr → Z
}.

(** ** The routing table *)

Record RoutingTable : Type := mkRoutingTable {
  owner : Node;
  kBuckets : list (option KBucket);
  numNeighbors : Z
}.

Definition NewRoutingTable (owner : Node) : RoutingTable :=
  mkRoutingTable owner (replicate 160 None) 0.

(** The table after the bucket behind [kBuckets[index]] has been written. *)
Definition setBucket (self : RoutingTable) (index : Z) (b : KBucket) : RoutingTable :=
  mkRoutingTable (owner self) (<[Z.to_nat index := Some b]> (kBuckets self))
                 (numNeighbors self).

Definition add (self : RoutingTable) (contact : Contact) : outcome RoutingTable :=
  let index := GetKBucketFromAddr (owner self) (Addr contact) in
  slot ← at_index (kBuckets self) index;
  let self := match slot with
              | None => setBucket self index (NewKBucket 20)
              | Some _ => self
              end in
  slot ← at_index (kBuckets self) index;
  r ← through slot (λ b, Ret (addContact b contact));
  Ret (setBucket self index r.1).

Definition remove (self : RoutingTable) (contact : Contact) : outcome RoutingTable :=
  let index := GetKBucketFromAddr (owner self) (Addr contact) in
  slot ← at_index (kBuckets self) index;
  r ← through slot (λ b, Ret (removeContact b contact));
  Ret (setBucket self index r.1).

Definition clear (self : RoutingTable) : RoutingTable :=
  mkRoutingTable (owner self) [] (numNeighbors self).

Definition ContactFromID (table : RoutingTable) (id : Z) : outcome (option Contact) :=
  let contact := mkContact id zeroTCPAddr in
  let index := GetKBucketFromID (owner table) id in
  kbucket ← at_index (kBuckets table) index;
  match kbucket with
  | Some b =>
      match getFromList b contact with
      | Some result => Ret (Some (Value result))
      | None => Ret None
      end
  | None => Ret None
  end.

(** *** findKNearestContacts *)

(** The builtin [copy(dst, src)]: [dst] afterwards. *)
Definition copy {A} (dst src : list A) : list A :=
  take (length dst) src ++ drop (length src) dst.

(** [s[:n]]. Beyond [len(s)] the result depends on the capacity of [s]; the
    one use below never gets there ([reslice_kNearest]). *)
Definition reslice {A} (s : list A) (n : nat) : outcome (list A) :=
  if (n <=? length s)%nat then Ret (take n s) else Panic SliceBoundsOutOfRange.

(** [sort.Slice] is library code that returns some permutation ordered by
    [less]; it is embedded as an insertion sort. *)
Fixpoint insertBy {A} (less : A → A → bool) (x : A) (l : list A) : list A :=
  match l with
  | [] => [x]
  | y :: l' => if less y x then y :: insertBy less x l' else x :: y :: l'
  end.

Definition sort_Slice {A} (less : A → A → bool) (l : list A) : list A :=
  foldr (insertBy less) [] l.

(** The comparison closure of the sort. *)
Definition narrowed (id : Z) (c : Contact) : Z :=
  float64 (Uint64 (distanceBetween id (Id c))).

Definition less (id : Z) (a b : Contact) : bool :=
  narrowed id a <? narrowed id b.

(** [for curr := index - 1; curr > 0; index-- { ... }]: one unit of fuel per
    test of the loop condition. The loop also changes [index]. *)
Fixpoint leftLoop (fuel : nat) (self : RoutingTable) (curr index : Z)
    (kNearest : list Contact) : outcome (list Contact * Z) :=
  match fuel with
  | O => OutOfFuel
  | S fuel' =>
      if 0 <? curr then
        currBucket ← at_index (kBuckets self) curr;
        all ← through currBucket getAllContacts;
        let kNearest := kNearest ++ all in
        if (k <=? length kNearest)%nat then Ret (kNearest, index)
        else leftLoop fuel' self curr (index - 1) kNearest
      else Ret (kNearest, index)
  end.

(** [for curr := index + 1; curr < len(self.kBuckets); curr++ { ... }]. *)
Fixpoint rightLoop (fuel : nat) (self : RoutingTable) (curr : Z)
    (kNearest : list Contact) : outcome (list Contact) :=
  match fuel with
  | O => OutOfFuel
  | S fuel' =>
      if curr <? Z.of_nat (length (kBuckets self)) then
        currBucket ← at_index (kBuckets self) curr;
        all ← through currBucket getAllContacts;
        let kNearest := kNearest ++ all in
        if (k <=? length kNearest)%nat then Ret kNearest
        else rightLoop fuel' self (curr + 1) kNearest
      else Ret kNearest
  end.

Definition findKNearestContacts (fuel : nat) (self : RoutingTable) (id : Z)
  : outcome (list Contact) :=
  let kNearest := replicate k zeroContact in
  let index := GetKBucketFromID (owner self) id in
  bucket ← at_index (kBuckets self) index;
  all ← through bucket getAllContacts;
  let kNearest := copy kNearest all in
  r ← (if (length kNearest <? k)%nat
       then leftLoop fuel self (index - 1) index kNearest
       else Ret (kNearest, index));
  let kNearest := r.1 in
  let index := r.2 in
  kNearest ← (if (length kNearest <? k)%nat
              then rightLoop fuel self (index + 1) kNearest
              else Ret kNearest);
  kNearest ← reslice kNearest k;
  Ret (sort_Slice (less id) kNearest).

(** ** Reachable tables *)

(** The tables a node can hold: built by [NewRoutingTable] and changed by
    [add] and [remove] calls that return; [P] restricts the contacts that are
    added. *)
Inductive reachableBy (P : Node → Contact → Prop) : RoutingTable → Prop :=
| reachable_new (o : Node) : reachableBy P (NewRoutingTable o)
| reachable_add (rt rt' : RoutingTable) (c : Contact) :
    reachableBy P rt → P (owner rt) c → add rt c = Ret rt' → reachableBy P rt'
| reachable_remove (rt rt' : RoutingTable) (c : Contact) :
    reachableBy P rt → remove rt c = Ret rt' → reachableBy P rt'.

Definition reachable : RoutingTable → Prop := reachableBy (λ _ _, True).

(** A contact whose address and identifier lead to the same bucket index, as
    for the contacts that [NewContact] builds from an address. *)
Definition consistent (o : Node) (c : Contact) : Prop :=
  GetKBucketFromAddr o (Addr c) = GetKBucketFromID o (Id c).

(** Run a sequence of [add] calls. *)
Fixpoint addAll (rt : RoutingTable) (cs : list Contact) : outcome RoutingTable :=
  match cs with
  | [] => Ret rt
  | c :: cs' => rt' ← add rt c; addAll rt' cs'
  end.

(** All contacts of the table, bucket by bucket. *)
Definition bucketContacts (slot : option KBucket) : list Contact :=
  match slot with
  | Some b => contacts b
  | None => []
  end.

Definition allContacts (rt : RoutingTable) : list Contact :=
  mjoin (bucketContacts <$> kBuckets rt).

(** ** An owner for the concrete instances *)

(** Modelled from the spec: [bucketIndex(ownerID, peerID)], "the zero-based
    index of the highest set bit in distance(ownerID, peerID), counted from
    the most-significant bit of the width"; it "fails" when both are equal,
    which is given as an index that no slice has. *)
Definition bucketIndex (ownerID peerID : Z) : Z :=
  let d := distanceBetween ownerID peerID in
  if d =? 0 then -1 else 159 - Z.log2 d.

(** A node that routes an identifier by [bucketIndex] and an address by the
    identifier that [NewContact] gives it. *)
Definition exampleNode (digest : TCPAddr → list byte) (ownerID : Z) : Node :=
  mkNode (bucketIndex ownerID) (λ a, bucketIndex ownerID (Id (NewContact digest a))).

(** [big.Int.FillBytes]: the [n]-byte big-endian form of [z]. *)
Definition byteOf (z : Z) : byte :=
  default x00 (Byte.of_N (Z.to_N (Z.land z 255))).

Fixpoint FillBytes (n : nat) (z : Z) : list byte :=
  match n with
  | O => []
  | S n' => byteOf (Z.shiftr z (8 * Z.of_nat n')) :: FillBytes n' z
  end.

(** A contact given with its identifier, as [Contact{id, addr}]. *)
Definition peer (id : Z) (ip : list byte) (port : Z) : Contact :=
  mkContact id (mkTCPAddr ip port EmptyString).

(** In the instances the digest of an address is its IP bytes (in place of
    SHA-1), and the owner has the identifier 0. *)
Definition node0 : Node := exampleNode IP 0.

(** The contact that [NewContact] builds for the [n]-byte IP address that
    reads [id]: its identifier is [id] (for [id] below [256 ^ n]). *)
Definition host (n : nat) (id : Z) (port : Z) : Contact :=
  NewContact IP (mkTCPAddr (FillBytes n id) port EmptyString).

Definition tableOf (cs : list Contact) : RoutingTable :=
  match addAll (NewRoutingTable node0) cs with
  | Ret rt => rt
  | _ => NewRoutingTable node0
  end.

(** Two peers in the bucket of [nearTarget]: one at distance [2^64] from it,
    one at distance [1]. *)
Definition nearTarget : Z := 2 ^ 127.
Definition cFar : Contact := host 16 (2 ^ 127 + 2 ^ 64) 4000.
Definition cNear : Contact := host 16 (2 ^ 127 + 1) 4000.

(** One peer seen under two addresses that differ in the port. *)
Definition cOld : Contact := host 4 (2 ^ 31 + 1) 4000.
Definition cMoved : Contact := host 4 (2 ^ 31 + 1) 5000.

(** Two contacts with one identifier whose addresses lead to two buckets. *)
Definition twinA : Contact := peer 5 (FillBytes 4 1) 4000.
Definition twinB : Contact := peer 5 (FillBytes 4 2) 4000.

(** Twenty peers of one bucket, and one more of the same bucket. *)
Definition twenty : list Contact :=
  (λ i : nat, host 4 (2 ^ 31 + Z.of_nat i) 4000) <$> seq 0 20.
Definition late : Contact := host 4 (2 ^ 31 + 20) 4000.
Definition fullBucket : KBucket :=
  foldl (λ b c, (addContact b c).1) (NewKBucket 20) twenty.

(** Three peers in three neighbouring buckets (128, 129 and 130). *)
Definition cLeft : Contact := host 4 (2 ^ 31 + 7) 4000.
Definition cMid : Contact := host 4 (2 ^ 30 + 7) 4000.
Definition cRight : Contact := host 4 (2 ^ 29 + 7) 4000.
Definition midTarget : Z := 2 ^ 30.

(** ** Orderings and counts used in the statements *)

(** Ascending full-width XOR distance to [target]. *)
Definition sortedByDistance (target : Z) (l : list Contact) : Prop :=
  ∀ (i j : nat) (a b : Contact), (i < j)%nat → l !! i = Some a → l !! j = Some b →
    distanceBetween target (Id a) ≤ distanceBetween target (Id b).

(** Ascending narrowed distance, the order of the comparison closure. *)
Definition narrowedLe (target : Z) (a b : Contact) : Prop :=
  narrowed target a ≤ narrowed target b.

(** Ordered by the comparison closure: no later entry is [less] than an
    earlier one. *)
Definition orderedByLess (target : Z) (l : list Contact) : Prop :=
  ∀ (i j : nat) (a b : Contact), (i < j)%nat → l !! i = Some a → l !! j = Some b →
    less target b a = false.

(** Executions of the loop body of [getFromList]. *)
Fixpoint scanSteps (es : list Contact) (contact : Contact) : nat :=
  match es with
  | [] => 0%nat
  | curr :: es' =>
      S (if AreEqualContacts curr contact then 0%nat else scanSteps es' contact)
  end.

(** Executions of the loop body of [getAllContacts]. *)
Fixpoint fillSteps (es : list Contact) (out : list Contact) (index : nat) : nat :=
  match es with
  | [] => 0%nat
  | curr :: es' =>
      S (if (index <? length out)%nat
         then fillSteps es' (<[index := curr]> out) (S index)
         else 0%nat)
  end.

(** The contacts list behind [kBuckets[index]] (none for a nil slot or a bad
    index). *)
Definition contactsAt (rt : RoutingTable) (index : Z) : list Contact :=
  match at_index (kBuckets rt) index with
  | Ret slot => bucketContacts slot
  | _ => []
  end.

(** Loop-body executions of each operation: the one scan of [add], [remove]
    and [ContactFromID]; for [findKNearestContacts] the snapshot of the
    target's bucket, as its two expansion loops are never entered
    ([findKNearestContacts_no_expansion]); the library sort of the 20
    entries is not counted. *)
Definition add_steps (rt : RoutingTable) (c : Contact) : nat :=
  scanSteps (contactsAt rt (GetKBucketFromAddr (owner rt) (Addr c))) c.

Definition remove_steps (rt : RoutingTable) (c : Contact) : nat :=
  scanSteps (contactsAt rt (GetKBucketFromAddr (owner rt) (Addr c))) c.

Definition ContactFromID_steps (rt : RoutingTable) (id : Z) : nat :=
  scanSteps (contactsAt rt (GetKBucketFromID (owner rt) id)) (mkContact id zeroTCPAddr).

Definition findKNearestContacts_steps (rt : RoutingTable) (id : Z) : nat :=
  fillSteps (contactsAt rt (GetKBucketFromID (owner rt) id))
            (replicate 20 zeroContact) 0.

(** No eviction is needed to [add] the contact: its bucket knows the
    identifier or has room. *)
Definition noEvictionNeeded (rt : RoutingTable) (c : Contact) : Prop :=
  ∀ b : KBucket,
    at_index (kBuckets rt) (GetKBucketFromAddr (owner rt) (Addr c)) = Ret (Some b) →
    getFromList b c = None →
    Z.of_nat (length (contacts b)) < bucket_k b.

(** ** Invariants *)

(** What every bucket of a reachable table satisfies. *)
Record bucket_ok (b : KBucket) : Prop := mk_bucket_ok {
  ok_k : bucket_k b = 20;
  ok_length : (length (contacts b) ≤ 20)%nat;
  ok_NoDup : NoDup (Id <$> contacts b);
  ok_lruCache : lruCache b = []
}.

(** What every reachable table satisfies: 160 slots, well-formed buckets, and
    every stored contact sits in the bucket its address leads to. *)
Record table_ok (P : Node → Contact → Prop) (rt : RoutingTable) : Prop := mk_table_ok {
  ok_slots : length (kBuckets rt) = 160%nat;
  ok_bucket : ∀ (i : nat) (b : KBucket),
    kBuckets rt !! i = Some (Some b) → bucket_ok b;
  ok_routed : ∀ (i : nat) (b : KBucket) (c : Contact),
    kBuckets rt !! i = Some (Some b) → c ∈ contacts b →
    GetKBucketFromAddr (owner rt) (Addr c) = Z.of_nat i ∧ P (owner rt) c
}.


(** ** Further functions and instances *)

(** [splitBucket] has an empty body. *)
Definition splitBucket (self : RoutingTable) : RoutingTable := self.

(** A contact whose address digest is the identifier of the owner of
    [node0]. *)
Definition cSelf : Contact := host 4 0 4000.


(** Two peers of one bucket whose distances to [tieTarget], 2^53 + 1 and
    2^53, convert to the same double. *)
Definition tieTarget : Z := 2 ^ 60.
Definition cTieFar : Contact := host 8 (2 ^ 60 + 2 ^ 53 + 1) 4000.
Definition cTieNear : Contact := host 8 (2 ^ 60 + 2 ^ 53) 4000.


(** * Properties *)

(** ** The bucket *)

Lemma AreEqualContacts_true (a b : Contact) :
  AreEqualContacts a b = true ↔ Id a = Id b.
Proof.
  unfold AreEqualContacts, Cmp.
  destruct (Z.compare_spec (Id a) (Id b)); split; intros; try lia; try done.
Qed.

Lemma AreEqualContacts_false (a b : Contact) :
  AreEqualContacts a b = false ↔ Id a ≠ Id b.
Proof.
  rewrite <- AreEqualContacts_true. destruct (AreEqualContacts a b); split; congruence.
Qed.

Lemma scanList_Some (es : list Contact) (c : Contact) (e : Element) :
  scanList es c = Some e →
  es !! position e = Some (Value e) ∧ Id (Value e) = Id c.
Proof.
  revert e. induction es as [|curr es IH]; intros e; simpl; [done|].
  destruct (AreEqualContacts curr c) eqn:Heq.
  - intros [= <-]. simpl. split; [done|]. by apply AreEqualContacts_true.
  - destruct (scanList es c) as [e'|]; [|done].
    intros [= <-]. simpl. by apply IH.
Qed.

Lemma scanList_None (es : list Contact) (c : Contact) :
  scanList es c = None ↔ Id c ∉ Id <$> es.
Proof.
  induction es as [|curr es IH]; simpl.
  - split; [intros _; apply not_elem_of_nil | done].
  - rewrite not_elem_of_cons.
    destruct (AreEqualContacts curr c) eqn:Heq.
    + apply AreEqualContacts_true in Heq. split; [done|]. intros [? _]. congruence.
    + apply AreEqualContacts_false in Heq.
      destruct (scanList es c); simpl.
      * split; [done|]. intros [_ H]. by apply IH in H.
      * split; [|done]. intros _. split; [congruence|]. by apply IH.
Qed.


(** In a list without repeated identifiers the scan finds any stored contact
    of that identifier. *)
Lemma scanList_NoDup (es : list Contact) (c x : Contact) :
  NoDup (Id <$> es) → x ∈ es → Id x = Id c →
  ∃ p, scanList es c = Some (mkElement p x).
Proof.
  induction es as [|curr es IH]; simpl; intros Hnd Hin Hid.
  - by apply elem_of_nil in Hin.
  - apply list.NoDup_cons in Hnd as [Hnotin Hnd].
    apply elem_of_cons in Hin as [->|Hin].
    + exists 0%nat. by rewrite (proj2 (AreEqualContacts_true curr c) Hid).
    + destruct (AreEqualContacts curr c) eqn:Heq.
      * apply AreEqualContacts_true in Heq. exfalso. apply Hnotin.
        rewrite Heq, <- Hid. by apply list_elem_of_fmap_2.
      * destruct (IH Hnd Hin Hid) as [p ->]. by exists (S p).
Qed.

Lemma MoveToFront_Permutation (l : list Contact) (e : Element) :
  MoveToFront l e ≡ₚ l.
Proof.
  unfold MoveToFront. destruct (l !! position e) eqn:Hl; [|done].
  symmetry. by apply delete_Permutation.
Qed.

Lemma NewKBucket_ok : bucket_ok (NewKBucket 20).
Proof. split; simpl; [done|lia|constructor|done]. Qed.

Lemma addContact_ok (b : KBucket) (c : Contact) :
  bucket_ok b → bucket_ok (addContact b c).1.
Proof.
  intros [Hk Hlen Hnd Hlru]. unfold addContact, getFromList.
  destruct (scanList (contacts b) c) as [e|] eqn:Hscan; simpl.
  - split; simpl; [done| | |done].
    + by rewrite (MoveToFront_Permutation (contacts b) e).
    + by rewrite (MoveToFront_Permutation (contacts b) e).
  - destruct (Z.of_nat (length (contacts b)) <? bucket_k b) eqn:Hlt; simpl; [|done].
    split; simpl; [done| | |done].
    + unfold PushFront. simpl. lia.
    + unfold PushFront. simpl. apply list.NoDup_cons.
      split; [|done]. by apply scanList_None.
Qed.

Lemma removeContact_ok (b : KBucket) (c : Contact) :
  bucket_ok b → bucket_ok (removeContact b c).1.
Proof.
  intros [Hk Hlen Hnd Hlru]. unfold removeContact, getFromList.
  destruct (scanList (contacts b) c) as [e|] eqn:Hscan; simpl; [|done].
  split; simpl; [done| | |done]; unfold Remove.
  - pose proof (sublist_length _ _ (sublist_delete (contacts b) (position e))). lia.
  - rewrite list_fmap_delete. eapply sublist_NoDup; [done|apply sublist_delete].
Qed.

Lemma addContact_elem (b : KBucket) (c x : Contact) :
  x ∈ contacts (addContact b c).1 → x ∈ contacts b ∨ x = c.
Proof.
  unfold addContact, getFromList.
  destruct (scanList (contacts b) c) as [e|]; simpl.
  - rewrite MoveToFront_Permutation. auto.
  - destruct (Z.of_nat (length (contacts b)) <? bucket_k b); simpl; [|auto].
    unfold PushFront. rewrite elem_of_cons. tauto.
Qed.

Lemma removeContact_elem (b : KBucket) (c x : Contact) :
  x ∈ contacts (removeContact b c).1 → x ∈ contacts b.
Proof.
  unfold removeContact, getFromList.
  destruct (scanList (contacts b) c) as [e|]; simpl; [|done].
  apply list_elem_of_delete_inv.
Qed.

(** ** The table *)

Lemma at_index_Ret {A} (s : list A) (i : Z) (x : A) :
  at_index s i = Ret x ↔ ∃ n : nat, i = Z.of_nat n ∧ s !! n = Some x.
Proof.
  unfold at_index. destruct (Z.ltb_spec i 0) as [Hneg|Hneg].
  - split; [done|]. intros (n & -> & _). lia.
  - split.
    + destruct (s !! Z.to_nat i) eqn:Hl; [|done]. intros [= ->].
      exists (Z.to_nat i). split; [lia|done].
    + intros (n & -> & Hn). by rewrite Nat2Z.id, Hn.
Qed.

(** What a returning [add] does to the table. *)
Lemma add_Ret (rt rt' : RoutingTable) (c : Contact) :
  add rt c = Ret rt' ↔
  ∃ (i : nat) (slot : option KBucket),
    GetKBucketFromAddr (owner rt) (Addr c) = Z.of_nat i ∧
    kBuckets rt !! i = Some slot ∧
    rt' = mkRoutingTable (owner rt)
            (<[i := Some (addContact (default (NewKBucket 20) slot) c).1]> (kBuckets rt))
            (numNeighbors rt).
Proof.
  unfold add. split.
  - destruct (at_index (kBuckets rt) _) as [slot| |] eqn:Hat; simpl; [|done..].
    apply at_index_Ret in Hat as (i & Hi & Hslot). rewrite Hi.
    intros H. exists i, slot. split; [done|]. split; [done|].
    pose proof (lookup_lt_Some _ _ _ Hslot) as Hlt.
    destruct slot as [b|]; simpl in *.
    + rewrite (proj2 (at_index_Ret (kBuckets rt) (Z.of_nat i) (Some b))) in H
        by eauto.
      simpl in H. injection H as <-. unfold setBucket. by rewrite Nat2Z.id.
    + rewrite (proj2 (at_index_Ret _ (Z.of_nat i) (Some (NewKBucket 20)))) in H.
      * simpl in H. injection H as <-. unfold setBucket. simpl.
        by rewrite Nat2Z.id, list_insert_insert_eq.
      * exists i. split; [done|]. rewrite Nat2Z.id. by apply list_lookup_insert_eq.
  - intros (i & slot & Hi & Hslot & ->). rewrite Hi.
    pose proof (lookup_lt_Some _ _ _ Hslot) as Hlt.
    rewrite (proj2 (at_index_Ret (kBuckets rt) (Z.of_nat i) slot)) by eauto.
    simpl. destruct slot as [b|]; simpl.
    + rewrite (proj2 (at_index_Ret (kBuckets rt) (Z.of_nat i) (Some b))) by eauto.
      simpl. unfold setBucket. by rewrite Nat2Z.id.
    + rewrite (proj2 (at_index_Ret _ (Z.of_nat i) (Some (NewKBucket 20)))).
      * simpl. unfold setBucket. simpl. by rewrite Nat2Z.id, list_insert_insert_eq.
      * exists i. split; [done|]. rewrite Nat2Z.id. by apply list_lookup_insert_eq.
Qed.

(** What a returning [remove] does to the table. *)
Lemma remove_Ret (rt rt' : RoutingTable) (c : Contact) :
  remove rt c = Ret rt' ↔
  ∃ (i : nat) (b : KBucket),
    GetKBucketFromAddr (owner rt) (Addr c) = Z.of_nat i ∧
    kBuckets rt !! i = Some (Some b) ∧
    rt' = mkRoutingTable (owner rt)
            (<[i := Some (removeContact b c).1]> (kBuckets rt))
            (numNeighbors rt).
Proof.
  unfold remove. split.
  - destruct (at_index (kBuckets rt) _) as [slot| |] eqn:Hat; simpl; [|done..].
    apply at_index_Ret in Hat as (i & Hi & Hslot). rewrite Hi.
    destruct slot as [b|]; simpl; [|done].
    intros [= <-]. exists i, b. unfold setBucket. by rewrite Nat2Z.id.
  - intros (i & b & Hi & Hslot & ->). rewrite Hi.
    rewrite (proj2 (at_index_Ret (kBuckets rt) (Z.of_nat i) (Some b))) by eauto.
    simpl. unfold setBucket. by rewrite Nat2Z.id.
Qed.

Lemma NewRoutingTable_ok (P : Node → Contact → Prop) (o : Node) :
  table_ok P (NewRoutingTable o).
Proof.
  unfold NewRoutingTable. split; cbn [kBuckets owner].
  - apply length_replicate.
  - intros i b Hb. apply lookup_replicate in Hb as [[=] _].
  - intros i b c Hb. apply lookup_replicate in Hb as [[=] _].
Qed.

Lemma add_ok (P : Node → Contact → Prop) (rt rt' : RoutingTable) (c : Contact) :
  table_ok P rt → P (owner rt) c → add rt c = Ret rt' → table_ok P rt'.
Proof.
  intros [Hlen Hbk Hrt] HP (i & slot & Hi & Hslot & ->)%add_Ret.
  assert (bucket_ok (default (NewKBucket 20) slot)) as Hok.
  { destruct slot as [b|]; simpl; [by eapply Hbk | apply NewKBucket_ok]. }
  pose proof (lookup_lt_Some _ _ _ Hslot) as Hlt.
  split; simpl.
  - by rewrite length_insert.
  - intros j b Hb. destruct (decide (i = j)) as [<-|Hne].
    + rewrite list_lookup_insert_eq in Hb by done. injection Hb as <-.
      by apply addContact_ok.
    + rewrite list_lookup_insert_ne in Hb by done. by eapply Hbk.
  - intros j b x Hb Hx. destruct (decide (i = j)) as [<-|Hne].
    + rewrite list_lookup_insert_eq in Hb by done. injection Hb as <-.
      apply addContact_elem in Hx as [Hx| ->]; [|done].
      destruct slot as [b|]; simpl in Hx; [by eapply Hrt|].
      by apply elem_of_nil in Hx.
    + rewrite list_lookup_insert_ne in Hb by done. by eapply Hrt.
Qed.

Lemma remove_ok (P : Node → Contact → Prop) (rt rt' : RoutingTable) (c : Contact) :
  table_ok P rt → remove rt c = Ret rt' → table_ok P rt'.
Proof.
  intros [Hlen Hbk Hrt] (i & b0 & Hi & Hslot & ->)%remove_Ret.
  pose proof (lookup_lt_Some _ _ _ Hslot) as Hlt.
  split; simpl.
  - by rewrite length_insert.
  - intros j b Hb. destruct (decide (i = j)) as [<-|Hne].
    + rewrite list_lookup_insert_eq in Hb by done. injection Hb as <-.
      apply removeContact_ok. by eapply Hbk.
    + rewrite list_lookup_insert_ne in Hb by done. by eapply Hbk.
  - intros j b x Hb Hx. destruct (decide (i = j)) as [<-|Hne].
    + rewrite list_lookup_insert_eq in Hb by done. injection Hb as <-.
      apply removeContact_elem in Hx. by eapply Hrt.
    + rewrite list_lookup_insert_ne in Hb by done. by eapply Hrt.
Qed.

Lemma reachableBy_ok (P : Node → Contact → Prop) (rt : RoutingTable) :
  reachableBy P rt → table_ok P rt.
Proof.
  induction 1 as [o|rt rt' c _ IH HP Hadd|rt rt' c _ IH Hrem].
  - apply NewRoutingTable_ok.
  - by eapply add_ok.
  - by eapply remove_ok.
Qed.

Lemma reachableBy_reachable (P : Node → Contact → Prop) (rt : RoutingTable) :
  reachableBy P rt → reachable rt.
Proof.
  induction 1; [constructor|by eapply reachable_add|by eapply reachable_remove].
Qed.

(** No repeated key in a concatenation: none inside a part, none across parts. *)
Lemma NoDup_fmap_join {A B} (f : A → B) (ls : list (list A)) :
  (∀ i l, ls !! i = Some l → NoDup (f <$> l)) →
  (∀ (i j : nat) l l' x y, ls !! i = Some l → ls !! j = Some l' →
     x ∈ l → y ∈ l' → f x = f y → i = j) →
  NoDup (f <$> mjoin ls).
Proof.
  induction ls as [|l ls IH]; intros Hin Hacross; simpl; [constructor|].
  rewrite fmap_app. apply list.NoDup_app. split; [|split].
  - by apply (Hin 0%nat).
  - intros z (x & -> & Hx)%list_elem_of_fmap (y & Hxy & Hy)%list_elem_of_fmap.
    apply list_elem_of_join in Hy as (l' & Hy & (j & Hj)%list_elem_of_lookup).
    by specialize (Hacross 0%nat (S j) l l' x y eq_refl Hj Hx Hy Hxy).
  - apply IH.
    + intros i l0 Hl0. by apply (Hin (S i)).
    + intros i j l0 l' x y Hi Hj Hx Hy Hxy.
      by specialize (Hacross (S i) (S j) l0 l' x y Hi Hj Hx Hy Hxy) as [= ->].
Qed.

(** ** Snapshots and the nearest-contacts query *)


Lemma fillContacts_length (es out r : list Contact) (index : nat) :
  fillContacts es out index = Ret r → length r = length out.
Proof.
  revert out index. induction es as [|curr es IH]; intros out index; simpl.
  - by intros [= ->].
  - destruct (index <? length out)%nat; [|done].
    intros H%IH. by rewrite length_insert in H.
Qed.

Lemma fillContacts_not_OutOfFuel (es out : list Contact) (index : nat) :
  fillContacts es out index ≠ OutOfFuel.
Proof.
  revert out index. induction es as [|curr es IH]; intros out index; simpl; [done|].
  destruct (index <? length out)%nat; [apply IH|done].
Qed.

(** A snapshot has 20 entries whatever the bucket holds. *)
Lemma getAllContacts_length (b : KBucket) (r : list Contact) :
  getAllContacts b = Ret r → length r = 20%nat.
Proof. intros H%fillContacts_length. by rewrite H, length_replicate. Qed.


Lemma length_copy {A} (dst src : list A) : length (copy dst src) = length dst.
Proof. unfold copy. rewrite length_app, length_take, length_drop. lia. Qed.

Lemma copy_same_length {A} (dst src : list A) :
  length dst = length src → copy dst src = src.
Proof.
  intros Hlen. unfold copy.
  rewrite take_ge by lia. rewrite drop_ge by lia. apply app_nil_r.
Qed.

Lemma through_getAllContacts_length (slot : option KBucket) (r : list Contact) :
  through slot getAllContacts = Ret r → length r = 20%nat.
Proof. destruct slot; simpl; [apply getAllContacts_length|done]. Qed.

Lemma through_getAllContacts_not_OutOfFuel (slot : option KBucket) :
  through slot getAllContacts ≠ OutOfFuel.
Proof. destruct slot; simpl; [apply fillContacts_not_OutOfFuel|done]. Qed.

Lemma at_index_not_OutOfFuel {A} (s : list A) (i : Z) : at_index s i ≠ OutOfFuel.
Proof. unfold at_index. destruct (i <? 0); [done|]. by destruct (s !! Z.to_nat i). Qed.

(** The left loop runs its body at most once: a snapshot adds 20 entries,
    which is [k], so the loop breaks. *)
Lemma leftLoop_terminates (fuel : nat) (self : RoutingTable) (curr index : Z)
    (kNearest : list Contact) :
  leftLoop (S fuel) self curr index kNearest ≠ OutOfFuel.
Proof.
  cbn -[Nat.leb Nat.ltb k]. destruct (0 <? curr); [|done].
  destruct (at_index (kBuckets self) curr) as [slot| |] eqn:Hat; cbn -[Nat.leb Nat.ltb k]; [|done|].
  - destruct (through slot getAllContacts) as [all| |] eqn:Hall; cbn -[Nat.leb Nat.ltb k]; [|done|].
    + apply through_getAllContacts_length in Hall.
      destruct (Nat.leb_spec k (length (kNearest ++ all))) as [|Hlt]; [done|].
      rewrite length_app, Hall in Hlt. unfold k in Hlt. lia.
    + by apply through_getAllContacts_not_OutOfFuel in Hall.
  - by apply at_index_not_OutOfFuel in Hat.
Qed.

Lemma rightLoop_terminates (fuel : nat) (self : RoutingTable) (curr : Z)
    (kNearest : list Contact) :
  rightLoop (S fuel) self curr kNearest ≠ OutOfFuel.
Proof.
  cbn -[Nat.leb Nat.ltb k]. destruct (curr <? Z.of_nat (length (kBuckets self))); [|done].
  destruct (at_index (kBuckets self) curr) as [slot| |] eqn:Hat; cbn -[Nat.leb Nat.ltb k]; [|done|].
  - destruct (through slot getAllContacts) as [all| |] eqn:Hall; cbn -[Nat.leb Nat.ltb k]; [|done|].
    + apply through_getAllContacts_length in Hall.
      destruct (Nat.leb_spec k (length (kNearest ++ all))) as [|Hlt]; [done|].
      rewrite length_app, Hall in Hlt. unfold k in Hlt. lia.
    + by apply through_getAllContacts_not_OutOfFuel in Hall.
  - by apply at_index_not_OutOfFuel in Hat.
Qed.

(** [kNearest] starts with [k] entries and [copy] keeps its length, so neither
    expansion loop is entered and [kNearest[:k]] is the whole slice: the
    result is the sorted snapshot of the one bucket of the target. *)
Lemma findKNearestContacts_no_expansion (fuel : nat) (self : RoutingTable) (id : Z) :
  findKNearestContacts fuel self id
  = (bucket ← at_index (kBuckets self) (GetKBucketFromID (owner self) id);
     all ← through bucket getAllContacts;
     Ret (sort_Slice (less id) all)).
Proof.
  unfold findKNearestContacts.
  destruct (at_index (kBuckets self) _) as [slot| |]; cbn -[Nat.leb Nat.ltb k]; [|done..].
  destruct (through slot getAllContacts) as [all| |] eqn:Hall;
    cbn -[Nat.leb Nat.ltb k]; [|done..].
  apply through_getAllContacts_length in Hall.
  rewrite copy_same_length by (by rewrite length_replicate, Hall).
  assert ((length all <? k)%nat = false) as Hlt by (by rewrite Hall).
  assert ((k <=? length all)%nat = true) as Hle by (by rewrite Hall).
  rewrite Hlt. cbn -[Nat.leb Nat.ltb k]. rewrite Hlt. cbn -[Nat.leb Nat.ltb k].
  unfold reslice. rewrite Hle. cbn -[Nat.leb Nat.ltb k].
  by rewrite take_ge by (rewrite Hall; unfold k; lia).
Qed.

(** The rewriting of [kNearest[:k]] stays within the length of the slice. *)
Lemma reslice_kNearest (all : list Contact) :
  length all = 20%nat →
  reslice (copy (replicate k zeroContact) all) k = Ret all.
Proof.
  intros Hall. rewrite copy_same_length by (by rewrite length_replicate, Hall).
  unfold reslice.
  destruct (Nat.leb_spec k (length all)) as [_|Hlt]; [|unfold k in Hlt; lia].
  by rewrite take_ge by (rewrite Hall; unfold k; lia).
Qed.

(** ** Sequences of [add] *)

(** The contacts that [NewContact] builds are routed alike by address and by
    identifier. *)
Lemma NewContact_consistent (digest : TCPAddr → list byte) (ownerID : Z) (a : TCPAddr) :
  consistent (exampleNode digest ownerID) (NewContact digest a).
Proof. reflexivity. Qed.

Lemma add_owner (rt rt' : RoutingTable) (c : Contact) :
  add rt c = Ret rt' → owner rt' = owner rt.
Proof. by intros (i & slot & _ & _ & ->)%add_Ret. Qed.

Lemma addAll_reachable (P : Node → Contact → Prop) (cs : list Contact)
    (rt rt' : RoutingTable) :
  reachableBy P rt → Forall (P (owner rt)) cs → addAll rt cs = Ret rt' →
  reachableBy P rt'.
Proof.
  revert rt. induction cs as [|c cs IH]; intros rt Hrt Hcs; simpl.
  - by intros [= <-].
  - destruct (add rt c) as [rt1| |] eqn:Hadd; simpl; [|done..].
    apply list.Forall_cons in Hcs as [Hc Hcs].
    apply IH; [by eapply reachable_add|].
    by rewrite (add_owner _ _ _ Hadd).
Qed.

Lemma tableOf_reachable (P : Node → Contact → Prop) (cs : list Contact)
    (rt : RoutingTable) :
  Forall (P node0) cs → addAll (NewRoutingTable node0) cs = Ret rt →
  reachableBy P (tableOf cs).
Proof.
  intros Hcs Hrt. unfold tableOf. rewrite Hrt.
  eapply addAll_reachable; [apply reachable_new|exact Hcs|exact Hrt].
Qed.

(** ** Claims about the invariants *)

(** C3 (as amended). After any sequence of [add] and [remove] calls every
    bucket holds at most k (= 20) contacts and no two contacts of one bucket
    have the same identifier; no two contacts anywhere in the table have the
    same identifier when every added contact is routed by its address to the
    bucket of its identifier. *)
Theorem buckets_bounded_and_ids_distinct (rt : RoutingTable) :
  reachable rt →
  (∀ (i : nat) (b : KBucket), kBuckets rt !! i = Some (Some b) →
     (length (contacts b) ≤ k)%nat ∧ NoDup (Id <$> contacts b)) ∧
  (reachableBy consistent rt → NoDup (Id <$> allContacts rt)).
Proof.
  intros Hrt. split.
  - intros i b Hb. apply reachableBy_ok in Hrt as [_ Hbk _].
    destruct (Hbk i b Hb) as [_ Hlen Hnd _]. done.
  - intros [_ Hbk Hrouted]%reachableBy_ok. unfold allContacts.
    apply NoDup_fmap_join.
    + intros i l Hl. rewrite list_lookup_fmap in Hl.
      destruct (kBuckets rt !! i) as [[b|]|] eqn:Hb; simplify_eq/=; [|constructor].
      by destruct (Hbk i b Hb).
    + intros i j l l' x y Hl Hl' Hx Hy Hxy. rewrite list_lookup_fmap in Hl, Hl'.
      destruct (kBuckets rt !! i) as [[b|]|] eqn:Hb; simplify_eq/=;
        [|by apply elem_of_nil in Hx].
      destruct (kBuckets rt !! j) as [[b'|]|] eqn:Hb'; simplify_eq/=;
        [|by apply elem_of_nil in Hy].
      destruct (Hrouted i b x Hb Hx) as [Hi Hci].
      destruct (Hrouted j b' y Hb' Hy) as [Hj Hcj].
      unfold consistent in Hci, Hcj. rewrite Hxy in Hci. lia.
Qed.

Lemma buckets_bounded_and_ids_distinct_witness :
  ((length [cOld] ≤ k)%nat ∧ NoDup (Id <$> [cOld])) ∧
  NoDup (Id <$> allContacts (tableOf [cOld; cMid])).
Proof.
  assert (reachableBy consistent (tableOf [cOld; cMid])) as Hc.
  { eapply tableOf_reachable; [|vm_compute; reflexivity].
    repeat constructor. }
  destruct (buckets_bounded_and_ids_distinct (tableOf [cOld; cMid])) as [Hb Hn].
  - by eapply reachableBy_reachable.
  - split; [|exact (Hn Hc)].
    apply (Hb 128%nat (mkKBucket [cOld] 20 [])). vm_compute. reflexivity.
Defined.

(** Whatever the owner computes: two addresses that lead to two different
    buckets put two contacts of one identifier into the table. *)
Lemma same_id_two_addresses (o : Node) (id : Z) (a1 a2 : TCPAddr) (i j : nat) :
  GetKBucketFromAddr o a1 = Z.of_nat i → GetKBucketFromAddr o a2 = Z.of_nat j →
  i ≠ j → (i < 160)%nat → (j < 160)%nat →
  ∃ rt : RoutingTable,
    addAll (NewRoutingTable o) [mkContact id a1; mkContact id a2] = Ret rt ∧
    kBuckets rt !! i = Some (Some (mkKBucket [mkContact id a1] 20 [])) ∧
    kBuckets rt !! j = Some (Some (mkKBucket [mkContact id a2] 20 [])).
Proof.
  intros Hi Hj Hne Hilt Hjlt.
  assert (∀ n : nat, (n < 160)%nat →
            replicate 160 (@None KBucket) !! n = Some None) as Hnew.
  { intros n Hn. by apply lookup_replicate_2. }
  eexists. split.
  - cbn [addAll]. erewrite (proj2 (add_Ret (NewRoutingTable o) _ _)).
    2:{ exists i, None. split; [exact Hi|]. split; [by apply Hnew|reflexivity]. }
    cbn [mbind outcome_bind]. erewrite (proj2 (add_Ret _ _ _)).
    2:{ exists j, None. split; [exact Hj|]. split; [|reflexivity].
        cbn [kBuckets NewRoutingTable]. rewrite list_lookup_insert_ne by done.
        by apply Hnew. }
    reflexivity.
  - cbn [kBuckets NewRoutingTable owner numNeighbors]. split.
    + rewrite list_lookup_insert_ne by done.
      apply list_lookup_insert_eq. by rewrite length_replicate.
    + apply list_lookup_insert_eq. by rewrite length_insert, length_replicate.
Qed.

(** The claim C3 fails as stated: after two [add] calls the table holds two
    contacts with the identifier 5, in the buckets 158 and 159. *)
Lemma same_id_in_two_buckets :
  reachable (tableOf [twinA; twinB]) ∧
  Id <$> allContacts (tableOf [twinA; twinB]) = [5; 5] ∧
  ¬ NoDup (Id <$> allContacts (tableOf [twinA; twinB])).
Proof.
  split; [|split].
  - eapply tableOf_reachable; [|vm_compute; reflexivity]. by repeat constructor.
  - vm_compute. reflexivity.
  - intros H. vm_compute in H. apply list.NoDup_cons in H as [H _].
    apply H. constructor.
Qed.

(** C10. The replacement cache of a bucket is empty when the bucket is built
    and no operation reads or writes it, so every bucket of every reachable
    table has an empty replacement cache. *)
Theorem lruCache_always_empty (rt : RoutingTable) :
  reachable rt →
  ∀ (i : nat) (b : KBucket), kBuckets rt !! i = Some (Some b) →
    lruCache b = [] ∧
    (∀ c, lruCache (addContact b c).1 = lruCache b
          ∧ lruCache (removeContact b c).1 = lruCache b) ∧
    (∀ cache c,
       let b' := mkKBucket (contacts b) (bucket_k b) cache in
       getFromList b' c = getFromList b c ∧
       getAllContacts b' = getAllContacts b ∧
       contacts (addContact b' c).1 = contacts (addContact b c).1 ∧
       (addContact b' c).2 = (addContact b c).2 ∧
       contacts (removeContact b' c).1 = contacts (removeContact b c).1 ∧
       (removeContact b' c).2 = (removeContact b c).2).
Proof.
  intros [_ Hbk _]%reachableBy_ok i b Hb.
  destruct (Hbk i b Hb) as [_ _ _ Hlru]. split; [done|]. split.
  - intros c. unfold addContact, removeContact.
    destruct (getFromList b c); simpl; [done|].
    by destruct (Z.of_nat (length (contacts b)) <? bucket_k b).
  - intros cache c. simpl. unfold addContact, removeContact, getFromList. simpl.
    destruct (scanList (contacts b) c); simpl; [done|].
    by destruct (Z.of_nat (length (contacts b)) <? bucket_k b).
Qed.

Lemma lruCache_always_empty_witness : lruCache fullBucket = [].
Proof.
  refine (proj1 (lruCache_always_empty (tableOf (twenty ++ [late])) _
                   128%nat fullBucket _)).
  - eapply tableOf_reachable; [|vm_compute; reflexivity].
    by repeat constructor.
  - vm_compute. reflexivity.
Defined.

(** ** Claims about insertion *)




Lemma allContacts_insert (rt : RoutingTable) (i : nat) (b b' : KBucket) :
  kBuckets rt !! i = Some (Some b) → contacts b' ≡ₚ contacts b →
  mjoin (bucketContacts <$> <[i := Some b']> (kBuckets rt)) ≡ₚ allContacts rt.
Proof.
  intros Hb Hperm. unfold allContacts.
  pose proof (lookup_lt_Some _ _ _ Hb) as Hlt.
  rewrite insert_take_drop by done.
  rewrite <- (take_drop_middle _ _ _ Hb) at 3.
  rewrite !fmap_app, !fmap_cons, !join_app. simpl. by rewrite Hperm.
Qed.

(** C8 (as amended). Re-inserting a contact whose identifier is already in
    its bucket moves the stored entry, with the address it was stored with,
    to the most-recently-seen end (the front, where new contacts are pushed),
    and creates no second entry anywhere in the table: the table holds the
    same contacts as before. *)
Theorem add_known_id_moves_stored_entry (rt : RoutingTable) (c : Contact)
    (i : nat) (b : KBucket) (e : Element) :
  GetKBucketFromAddr (owner rt) (Addr c) = Z.of_nat i →
  kBuckets rt !! i = Some (Some b) →
  getFromList b c = Some e →
  ∃ (rt' : RoutingTable) (b' : KBucket),
    add rt c = Ret rt' ∧
    kBuckets rt' = <[i := Some b']> (kBuckets rt) ∧
    contacts b !! position e = Some (Value e) ∧
    Id (Value e) = Id c ∧
    contacts b' = Value e :: delete (position e) (contacts b) ∧
    length (contacts b') = length (contacts b) ∧
    allContacts rt' ≡ₚ allContacts rt.
Proof.
  intros Hi Hb He.
  destruct (scanList_Some _ _ _ He) as [Hpos Hid].
  assert (addContact b c
          = (mkKBucket (Value e :: delete (position e) (contacts b))
                       (bucket_k b) (lruCache b), true)) as Hadd.
  { unfold addContact. rewrite He. unfold MoveToFront. by rewrite Hpos. }
  eexists _, (addContact b c).1. split.
  - apply add_Ret. exists i, (Some b). eauto.
  - change (default (NewKBucket 20) (Some b)) with b. rewrite Hadd. cbn [fst contacts kBuckets].
    assert (Value e :: delete (position e) (contacts b) ≡ₚ contacts b) as Hperm.
    { symmetry. by apply delete_Permutation. }
    do 4 (split; [done|]). split.
    + by rewrite Hperm.
    + unfold allContacts at 1. cbn [kBuckets]. by apply (allContacts_insert rt i b).
Qed.

Lemma add_known_id_moves_stored_entry_witness :
  ∃ (rt' : RoutingTable) (b' : KBucket),
    add (tableOf [cOld; cLeft]) cMoved = Ret rt' ∧
    kBuckets rt' = <[128%nat := Some b']> (kBuckets (tableOf [cOld; cLeft])) ∧
    [cLeft; cOld] !! 1%nat = Some cOld ∧
    Id cOld = Id cMoved ∧
    contacts b' = [cOld; cLeft] ∧
    length (contacts b') = 2%nat ∧
    allContacts rt' ≡ₚ allContacts (tableOf [cOld; cLeft]).
Proof.
  apply (add_known_id_moves_stored_entry (tableOf [cOld; cLeft]) cMoved 128
           (mkKBucket [cLeft; cOld] 20 []) (mkElement 1 cOld));
    vm_compute; reflexivity.
Defined.

(** The claim C8 fails as stated: the bucket stores [cOld] (port 4000);
    re-inserting the same identifier with port 5000 moves [cOld] to the front
    and the stored address is still the old one. *)
Lemma readd_keeps_old_address :
  Id cMoved = Id cOld ∧ Addr cMoved ≠ Addr cOld ∧
  addContact (mkKBucket [cLeft; cOld] 20 []) cMoved
  = (mkKBucket [cOld; cLeft] 20 [], true) ∧
  cMoved ∉ [cOld; cLeft].
Proof.
  split; [vm_compute; reflexivity|].
  split; [intros H; vm_compute in H; discriminate|].
  split; [vm_compute; reflexivity|].
  intros H. vm_compute in H.
  repeat (apply elem_of_cons in H as [H|H]; [discriminate|]).
  by apply elem_of_nil in H.
Qed.

(** ** Claims about lookup and removal *)

(** The scan looks at the identifier of the contact only. *)
Lemma scanList_ext (es : list Contact) (c1 c2 : Contact) :
  Id c1 = Id c2 → scanList es c1 = scanList es c2.
Proof.
  intros Hid. induction es as [|curr es IH]; simpl; [done|].
  unfold AreEqualContacts. by rewrite Hid, IH.
Qed.

Lemma ContactFromID_slot (rt : RoutingTable) (id : Z) (i : nat) (slot : option KBucket) :
  GetKBucketFromID (owner rt) id = Z.of_nat i →
  kBuckets rt !! i = Some slot →
  ContactFromID rt id
  = Ret (Value <$> scanList (bucketContacts slot) (mkContact id zeroTCPAddr)).
Proof.
  intros Hi Hslot. unfold ContactFromID. rewrite Hi.
  rewrite (proj2 (at_index_Ret (kBuckets rt) (Z.of_nat i) slot)) by eauto.
  destruct slot as [b|]; simpl; [|done].
  unfold getFromList. by destruct (scanList (contacts b) _).
Qed.

(** On a table filled with consistently routed contacts the lookup finds
    every stored contact, with the address it is stored with. *)
Lemma ContactFromID_stored (rt : RoutingTable) (c : Contact) :
  reachableBy consistent rt → c ∈ allContacts rt →
  ContactFromID rt (Id c) = Ret (Some c).
Proof.
  intros [_ Hbk Hrouted]%reachableBy_ok Hc. unfold allContacts in Hc.
  apply list_elem_of_join in Hc as (l & Hc & Hl).
  apply list_elem_of_fmap in Hl as (slot & -> & (i & Hslot)%list_elem_of_lookup).
  destruct slot as [b|]; simpl in Hc; [|by apply elem_of_nil in Hc].
  destruct (Hrouted i b c Hslot Hc) as [Hi Hcons].
  unfold consistent in Hcons. rewrite Hi in Hcons.
  rewrite (ContactFromID_slot rt (Id c) i (Some b)) by done. simpl.
  rewrite (scanList_ext _ (mkContact (Id c) zeroTCPAddr) c) by done.
  destruct (Hbk i b Hslot) as [_ _ Hnd _].
  by destruct (scanList_NoDup (contacts b) c c Hnd Hc eq_refl) as [p ->].
Qed.




(** [remove] dereferences a nil bucket. *)
Lemma remove_nil_bucket (rt : RoutingTable) (c : Contact) :
  at_index (kBuckets rt) (GetKBucketFromAddr (owner rt) (Addr c)) = Ret None →
  remove rt c = Panic NilDereference.
Proof. intros H. unfold remove. by rewrite H. Qed.

(** On an existing bucket that does not hold the identifier [remove] returns
    and leaves the table as it was. *)
Lemma remove_absent (rt : RoutingTable) (c : Contact) (i : nat) (b : KBucket) :
  GetKBucketFromAddr (owner rt) (Addr c) = Z.of_nat i →
  kBuckets rt !! i = Some (Some b) →
  Id c ∉ Id <$> contacts b →
  remove rt c = Ret rt.
Proof.
  intros Hi Hb Habs. apply remove_Ret. exists i, b. split; [done|]. split; [done|].
  unfold removeContact, getFromList. rewrite (proj2 (scanList_None _ _) Habs).
  simpl. rewrite list_insert_id by done. by destruct rt.
Qed.


(** [ContactFromID] tests the bucket for nil. *)
Lemma ContactFromID_nil_bucket (rt : RoutingTable) (id : Z) :
  at_index (kBuckets rt) (GetKBucketFromID (owner rt) id) = Ret None →
  ContactFromID rt id = Ret None.
Proof. intros H. unfold ContactFromID. by rewrite H. Qed.

(** C9 (the code departs from it). On a table just built no bucket exists;
    the lookup of an absent identifier returns not-found, and [remove] of the
    same absent contact panics on the nil bucket instead of reporting
    not-found. *)
Theorem remove_absent_panics_on_nil_bucket :
  allContacts (NewRoutingTable node0) = [] ∧
  kBuckets (NewRoutingTable node0) !! 128%nat = Some None ∧
  GetKBucketFromID node0 (Id cOld) = 128 ∧
  GetKBucketFromAddr node0 (Addr cOld) = 128 ∧
  ContactFromID (NewRoutingTable node0) (Id cOld) = Ret None ∧
  remove (NewRoutingTable node0) cOld = Panic NilDereference.
Proof. repeat split; vm_compute; reflexivity. Qed.

(** ** Termination and step counts *)

Lemma scanSteps_found (es : list Contact) (c : Contact) (e : Element) :
  scanList es c = Some e → scanSteps es c = S (position e).
Proof.
  revert e. induction es as [|curr es IH]; intros e; simpl; [done|].
  destruct (AreEqualContacts curr c); [by intros [= <-]|].
  destruct (scanList es c) as [e'|]; [|done].
  intros [= <-]. simpl. f_equal. by apply IH.
Qed.

Lemma scanSteps_not_found (es : list Contact) (c : Contact) :
  scanList es c = None → scanSteps es c = length es.
Proof.
  induction es as [|curr es IH]; simpl; [done|].
  destruct (AreEqualContacts curr c); [done|].
  destruct (scanList es c); [done|]. intros _. f_equal. by apply IH.
Qed.

Lemma scanSteps_le (es : list Contact) (c : Contact) :
  (scanSteps es c ≤ length es)%nat.
Proof.
  induction es as [|curr es IH]; simpl; [done|].
  destruct (AreEqualContacts curr c); lia.
Qed.

Lemma fillSteps_le (es out : list Contact) (index : nat) :
  (fillSteps es out index ≤ length es)%nat.
Proof.
  revert out index. induction es as [|curr es IH]; intros out index; simpl; [done|].
  destruct (index <? length out)%nat; [|lia].
  specialize (IH (<[index:=curr]> out) (S index)). lia.
Qed.

Lemma contactsAt_length (rt : RoutingTable) (index : Z) :
  reachable rt → (length (contactsAt rt index) ≤ 20)%nat.
Proof.
  intros [_ Hbk _]%reachableBy_ok. unfold contactsAt.
  destruct (at_index (kBuckets rt) index) as [slot| |] eqn:Hat; simpl; [|lia..].
  apply at_index_Ret in Hat as (i & _ & Hslot).
  destruct slot as [b|]; simpl; [|lia]. by destruct (Hbk i b Hslot).
Qed.

Lemma add_not_OutOfFuel (rt : RoutingTable) (c : Contact) : add rt c ≠ OutOfFuel.
Proof.
  unfold add.
  destruct (at_index (kBuckets rt) _) as [slot| |] eqn:Hat; simpl; [|done|].
  - match goal with
    | |- context [at_index ?s ?i] =>
        destruct (at_index s i) as [slot'| |] eqn:Hat'; simpl; [|done|]
    end.
    + by destruct slot'.
    + by apply at_index_not_OutOfFuel in Hat'.
  - by apply at_index_not_OutOfFuel in Hat.
Qed.

Lemma remove_not_OutOfFuel (rt : RoutingTable) (c : Contact) : remove rt c ≠ OutOfFuel.
Proof.
  unfold remove.
  destruct (at_index (kBuckets rt) _) as [slot| |] eqn:Hat; simpl; [|done|].
  - by destruct slot.
  - by apply at_index_not_OutOfFuel in Hat.
Qed.

Lemma ContactFromID_not_OutOfFuel (rt : RoutingTable) (id : Z) :
  ContactFromID rt id ≠ OutOfFuel.
Proof.
  unfold ContactFromID.
  destruct (at_index (kBuckets rt) _) as [slot| |] eqn:Hat; simpl; [|done|].
  - destruct slot as [b|]; [|done]. by destruct (getFromList b _).
  - by apply at_index_not_OutOfFuel in Hat.
Qed.

Lemma findKNearestContacts_not_OutOfFuel (fuel : nat) (rt : RoutingTable) (id : Z) :
  findKNearestContacts fuel rt id ≠ OutOfFuel.
Proof.
  rewrite findKNearestContacts_no_expansion.
  destruct (at_index (kBuckets rt) _) as [slot| |] eqn:Hat; simpl; [|done|].
  - destruct (through slot getAllContacts) as [all| |] eqn:Hall; simpl; [done..|].
    by apply through_getAllContacts_not_OutOfFuel in Hall.
  - by apply at_index_not_OutOfFuel in Hat.
Qed.

(** C6. On every table and input each of [add], [remove], lookup and
    [findKNearestContacts] ends (it returns or panics, it never runs out of
    fuel, whatever the fuel), and the left and the right expansion loop end
    after one test of their condition at most; on a reachable table each
    operation runs at most B × k = 160 × 20 loop bodies. *)
Theorem operations_terminate (rt : RoutingTable) (c : Contact) (id : Z) (fuel : nat) :
  (add rt c ≠ OutOfFuel ∧
   remove rt c ≠ OutOfFuel ∧
   ContactFromID rt id ≠ OutOfFuel ∧
   findKNearestContacts fuel rt id ≠ OutOfFuel ∧
   (∀ curr index kNearest, leftLoop (S fuel) rt curr index kNearest ≠ OutOfFuel) ∧
   (∀ curr kNearest, rightLoop (S fuel) rt curr kNearest ≠ OutOfFuel)) ∧
  (reachable rt →
   (add_steps rt c ≤ 160 * k)%nat ∧
   (remove_steps rt c ≤ 160 * k)%nat ∧
   (ContactFromID_steps rt id ≤ 160 * k)%nat ∧
   (findKNearestContacts_steps rt id ≤ 160 * k)%nat).
Proof.
  split.
  - split; [apply add_not_OutOfFuel|].
    split; [apply remove_not_OutOfFuel|].
    split; [apply ContactFromID_not_OutOfFuel|].
    split; [apply findKNearestContacts_not_OutOfFuel|].
    split; [intros; apply leftLoop_terminates|].
    intros; apply rightLoop_terminates.
  - intros Hrt.
    unfold add_steps, remove_steps, ContactFromID_steps, findKNearestContacts_steps, k.
    pose proof (contactsAt_length rt (GetKBucketFromAddr (owner rt) (Addr c)) Hrt).
    pose proof (contactsAt_length rt (GetKBucketFromID (owner rt) id) Hrt).
    pose proof (scanSteps_le (contactsAt rt (GetKBucketFromAddr (owner rt) (Addr c))) c).
    pose proof (scanSteps_le (contactsAt rt (GetKBucketFromID (owner rt) id))
                  (mkContact id zeroTCPAddr)).
    pose proof (fillSteps_le (contactsAt rt (GetKBucketFromID (owner rt) id))
                  (replicate 20 zeroContact) 0).
    lia.
Qed.

Lemma operations_terminate_witness :
  (add (tableOf twenty) late ≠ OutOfFuel ∧
   remove (tableOf twenty) late ≠ OutOfFuel ∧
   ContactFromID (tableOf twenty) (Id late) ≠ OutOfFuel ∧
   findKNearestContacts 0 (tableOf twenty) (Id late) ≠ OutOfFuel ∧
   leftLoop 1 (tableOf twenty) 127 128 [] ≠ OutOfFuel ∧
   rightLoop 1 (tableOf twenty) 129 [] ≠ OutOfFuel) ∧
  (add_steps (tableOf twenty) late ≤ 160 * k)%nat ∧
  (remove_steps (tableOf twenty) late ≤ 160 * k)%nat ∧
  (ContactFromID_steps (tableOf twenty) (Id late) ≤ 160 * k)%nat ∧
  (findKNearestContacts_steps (tableOf twenty) (Id late) ≤ 160 * k)%nat.
Proof.
  destruct (operations_terminate (tableOf twenty) late (Id late) 0)
    as [(Ha & Hr & Hc & Hf & Hl & Hrl) Hsteps].
  split.
  - exact (conj Ha (conj Hr (conj Hc (conj Hf (conj (Hl 127 128 []) (Hrl 129 [])))))).
  - apply Hsteps. eapply tableOf_reachable; [|vm_compute; reflexivity].
    by repeat constructor.
Defined.

(** ** The sort *)

Lemma insertBy_Permutation {A} (lt : A → A → bool) (x : A) (l : list A) :
  insertBy lt x l ≡ₚ x :: l.
Proof.
  induction l as [|y l IH]; simpl; [done|].
  destruct (lt y x); [|done]. rewrite IH. apply Permutation_swap.
Qed.

Lemma sort_Slice_Permutation {A} (lt : A → A → bool) (l : list A) :
  sort_Slice lt l ≡ₚ l.
Proof.
  induction l as [|x l IH]; simpl; [done|].
  by rewrite insertBy_Permutation, IH.
Qed.

Lemma insertBy_narrowedLe (id : Z) (x : Contact) (l : list Contact) :
  StronglySorted (narrowedLe id) l →
  StronglySorted (narrowedLe id) (insertBy (less id) x l).
Proof.
  induction l as [|y l IH]; simpl; intros Hl.
  - repeat constructor.
  - apply StronglySorted_cons in Hl as [Hy Hl]. unfold less at 1.
    destruct (Z.ltb_spec (narrowed id y) (narrowed id x)) as [Hlt|Hge].
    + apply StronglySorted_cons. split; [|by apply IH].
      rewrite insertBy_Permutation. constructor; [unfold narrowedLe; lia|done].
    + apply StronglySorted_cons. split.
      * constructor; [done|].
        eapply Forall_impl; [exact Hy|]. unfold narrowedLe. intros z Hz. lia.
      * by apply StronglySorted_cons.
Qed.

Lemma sort_Slice_narrowedLe (id : Z) (l : list Contact) :
  StronglySorted (narrowedLe id) (sort_Slice (less id) l).
Proof.
  induction l as [|x l IH]; simpl; [constructor|]. by apply insertBy_narrowedLe.
Qed.

Lemma StronglySorted_lookup {A} (R : A → A → Prop) (l : list A) (i j : nat) (a b : A) :
  StronglySorted R l → (i < j)%nat → l !! i = Some a → l !! j = Some b → R a b.
Proof.
  intros Hl. revert i j. induction Hl as [|x l Hl IH Hx]; intros i j Hij Hi Hj.
  - done.
  - destruct j as [|j]; [lia|]. destruct i as [|i]; simpl in *.
    + injection Hi as <-. rewrite Forall_forall in Hx. apply Hx.
      by eapply list_elem_of_lookup_2.
    + apply (IH i j); [lia|done..].
Qed.


(** ** Claims about the nearest-contacts query *)

(** The query returns exactly 20 entries whenever it returns. *)
Lemma findKNearestContacts_length (fuel : nat) (rt : RoutingTable) (id : Z)
    (out : list Contact) :
  findKNearestContacts fuel rt id = Ret out → length out = 20%nat.
Proof.
  rewrite findKNearestContacts_no_expansion.
  destruct (at_index (kBuckets rt) _) as [slot| |]; simpl; [|done..].
  destruct (through slot getAllContacts) as [all| |] eqn:Hall; simpl; [|done..].
  intros [= <-]. rewrite sort_Slice_Permutation.
  by apply through_getAllContacts_length in Hall.
Qed.


(** The query panics when no bucket was created yet at the index of the
    target. *)
Lemma findKNearestContacts_nil_bucket (fuel : nat) (rt : RoutingTable) (id : Z) :
  at_index (kBuckets rt) (GetKBucketFromID (owner rt) id) = Ret None →
  findKNearestContacts fuel rt id = Panic NilDereference.
Proof. intros H. rewrite findKNearestContacts_no_expansion. by rewrite H. Qed.

(** Whatever algorithm sorts the slice: no rearrangement of the snapshot of
    the bucket of [cFar] and [cNear] that is ordered by the comparison
    closure is in ascending distance to [nearTarget]. *)
Lemma ordered_by_less_not_by_distance (out : list Contact) :
  cFar ∈ out → cNear ∈ out →
  orderedByLess nearTarget out → ¬ sortedByDistance nearTarget out.
Proof.
  intros (p & Hp)%list_elem_of_lookup (q & Hq)%list_elem_of_lookup Hless Hdist.
  destruct (Nat.lt_total p q) as [Hpq|[->|Hqp]].
  - specialize (Hdist p q cFar cNear Hpq Hp Hq). vm_compute in Hdist. by apply Hdist.
  - rewrite Hp in Hq. vm_compute in Hq. discriminate.
  - specialize (Hless q p cNear cFar Hqp Hq Hp). vm_compute in Hless. discriminate.
Qed.


(** C4 (the code departs from it). The table holds one contact, in the
    bucket of the target. The query returns 20 entries: that contact and 19
    zero-valued contacts, none of which is stored in the table. *)
Theorem findKNearestContacts_returns_placeholders (fuel : nat) :
  allContacts (tableOf [cMid]) = [cMid] ∧
  findKNearestContacts fuel (tableOf [cMid]) midTarget
  = Ret (cMid :: replicate 19 zeroContact) ∧
  length (cMid :: replicate 19 zeroContact) = 20%nat ∧
  zeroContact ∉ allContacts (tableOf [cMid]).
Proof.
  split; [vm_compute; reflexivity|]. split; [vm_compute; reflexivity|].
  split; [reflexivity|].
  intros H. vm_compute in H. apply elem_of_cons in H as [H|H]; [discriminate|].
  by apply elem_of_nil in H.
Qed.

(** C5 (the code departs from it). The bucket of the target (index 129)
    holds one contact, fewer than k; the buckets 128 and 130 hold one contact
    each. The query scans neither: its result is the contact of bucket 129
    and 19 zero values, without [cLeft] and [cRight]. *)
Theorem findKNearestContacts_scans_one_bucket (fuel : nat) :
  GetKBucketFromID node0 midTarget = 129 ∧
  contactsAt (tableOf [cLeft; cMid; cRight]) 128 = [cLeft] ∧
  contactsAt (tableOf [cLeft; cMid; cRight]) 129 = [cMid] ∧
  contactsAt (tableOf [cLeft; cMid; cRight]) 130 = [cRight] ∧
  findKNearestContacts fuel (tableOf [cLeft; cMid; cRight]) midTarget
  = Ret (cMid :: replicate 19 zeroContact) ∧
  (cLeft ∉ cMid :: replicate 19 zeroContact) ∧
  (cRight ∉ cMid :: replicate 19 zeroContact).
Proof.
  do 5 (split; [vm_compute; reflexivity|]).
  split; intros H; vm_compute in H;
    repeat (apply elem_of_cons in H as [H|H]; [discriminate|]);
    by apply elem_of_nil in H.
Qed.

(** * Further properties of the table operations *)

(** ** How [add] and [remove] change the contents *)

Lemma mjoin_bucketContacts_split (l : list (option KBucket)) (i : nat)
    (slot : option KBucket) :
  l !! i = Some slot →
  mjoin (bucketContacts <$> l)
  = mjoin (bucketContacts <$> take i l) ++ bucketContacts slot
    ++ mjoin (bucketContacts <$> drop (S i) l).
Proof.
  intros Hslot. rewrite <- (take_drop_middle _ _ _ Hslot) at 1.
  by rewrite fmap_app, fmap_cons, join_app.
Qed.

Lemma mjoin_bucketContacts_insert (l : list (option KBucket)) (i : nat)
    (slot : option KBucket) :
  (i < length l)%nat →
  mjoin (bucketContacts <$> <[i := slot]> l)
  = mjoin (bucketContacts <$> take i l) ++ bucketContacts slot
    ++ mjoin (bucketContacts <$> drop (S i) l).
Proof.
  intros Hlt. rewrite insert_take_drop by done.
  by rewrite fmap_app, fmap_cons, join_app.
Qed.

Lemma addContact_twice (b : KBucket) (c : Contact) :
  addContact (addContact b c).1 c = addContact b c.
Proof.
  unfold addContact at 2 3. unfold getFromList.
  destruct (scanList (contacts b) c) as [e|] eqn:Hscan.
  - destruct (scanList_Some _ _ _ Hscan) as [Hpos Hid].
    unfold MoveToFront. rewrite Hpos. cbn [fst].
    unfold addContact, getFromList. cbn [contacts scanList].
    rewrite (proj2 (AreEqualContacts_true (Value e) c) Hid).
    unfold MoveToFront. cbn. done.
  - destruct (Z.of_nat (length (contacts b)) <? bucket_k b) eqn:Hroom; cbn [fst].
    + unfold addContact, getFromList. cbn [contacts PushFront scanList].
      rewrite (proj2 (AreEqualContacts_true c c) eq_refl).
      unfold MoveToFront. cbn. done.
    + unfold addContact, getFromList. by rewrite Hscan, Hroom.
Qed.

(** X1. Adding the same contact a second time changes nothing: when [add]
    returns, a second [add] of that contact returns the table the first one
    returned. *)
Theorem add_idempotent (rt rt' : RoutingTable) (c : Contact) :
  add rt c = Ret rt' → add rt' c = Ret rt'.
Proof.
  intros (i & slot & Hi & Hslot & ->)%add_Ret.
  pose proof (lookup_lt_Some _ _ _ Hslot) as Hlt.
  set (b1 := (addContact (default (NewKBucket 20) slot) c).1).
  apply add_Ret. exists i, (Some b1). cbn [owner kBuckets numNeighbors].
  split; [done|]. split; [by apply list_lookup_insert_eq|].
  change (default (NewKBucket 20) (Some b1)) with b1.
  rewrite list_insert_insert_eq. unfold b1. by rewrite addContact_twice.
Qed.

Lemma add_idempotent_witness :
  add (tableOf [cLeft; cOld]) cOld = Ret (tableOf [cLeft; cOld]).
Proof. apply (add_idempotent (tableOf [cLeft])). vm_compute. reflexivity. Defined.

(** X2. [add] never drops a stored contact and stores at most the given one:
    when it returns, the table holds the contacts it held before, or those
    and the added contact. *)
Theorem add_keeps_contacts (rt rt' : RoutingTable) (c : Contact) :
  add rt c = Ret rt' →
  allContacts rt' ≡ₚ allContacts rt ∨ allContacts rt' ≡ₚ c :: allContacts rt.
Proof.
  intros (i & slot & Hi & Hslot & ->)%add_Ret.
  pose proof (lookup_lt_Some _ _ _ Hslot) as Hlt.
  unfold allContacts. cbn [kBuckets].
  rewrite (mjoin_bucketContacts_insert _ i _ Hlt).
  rewrite (mjoin_bucketContacts_split _ i slot Hslot).
  assert (bucketContacts slot = contacts (default (NewKBucket 20) slot)) as ->
    by (by destruct slot).
  set (b := default (NewKBucket 20) slot). cbn [bucketContacts].
  unfold addContact, getFromList.
  destruct (scanList (contacts b) c) as [e|]; cbn [fst contacts].
  - left. by rewrite MoveToFront_Permutation.
  - destruct (Z.of_nat (length (contacts b)) <? bucket_k b); cbn [fst contacts].
    + right. unfold PushFront. rewrite <- app_comm_cons.
      symmetry. apply Permutation_middle.
    + by left.
Qed.

Lemma add_keeps_contacts_witness :
  allContacts (tableOf [cLeft; cOld]) ≡ₚ allContacts (tableOf [cLeft])
  ∨ allContacts (tableOf [cLeft; cOld]) ≡ₚ cOld :: allContacts (tableOf [cLeft]).
Proof. apply add_keeps_contacts. vm_compute. reflexivity. Defined.

(** X3. [remove] takes out at most one contact, one with the identifier of
    the given contact, and keeps every other contact: when it returns, the
    contents are unchanged or they are the old contents without one contact
    of that identifier. *)
Theorem remove_takes_one (rt rt' : RoutingTable) (c : Contact) :
  remove rt c = Ret rt' →
  allContacts rt' = allContacts rt ∨
  ∃ x : Contact, Id x = Id c ∧ allContacts rt ≡ₚ x :: allContacts rt'.
Proof.
  intros (i & b & Hi & Hslot & ->)%remove_Ret.
  pose proof (lookup_lt_Some _ _ _ Hslot) as Hlt.
  unfold allContacts. cbn [kBuckets].
  rewrite (mjoin_bucketContacts_insert _ i _ Hlt).
  rewrite (mjoin_bucketContacts_split _ i _ Hslot). cbn [bucketContacts].
  unfold removeContact, getFromList.
  destruct (scanList (contacts b) c) as [e|] eqn:Hscan; cbn [fst contacts];
    [|by left].
  destruct (scanList_Some _ _ _ Hscan) as [Hpos Hid].
  right. exists (Value e). split; [done|]. unfold Remove.
  rewrite (delete_Permutation _ _ _ Hpos) at 1. rewrite <- app_comm_cons.
  symmetry. apply Permutation_middle.
Qed.

Lemma remove_takes_one_witness :
  allContacts (tableOf [cLeft]) = allContacts (tableOf [cLeft; cOld]) ∨
  ∃ x : Contact, Id x = Id cOld ∧
    allContacts (tableOf [cLeft; cOld]) ≡ₚ x :: allContacts (tableOf [cLeft]).
Proof. apply remove_takes_one. vm_compute. reflexivity. Defined.

(** ** Round trips of [add], [remove] and lookup *)

Lemma remove_owner (rt rt' : RoutingTable) (c : Contact) :
  remove rt c = Ret rt' → owner rt' = owner rt.
Proof. by intros (i & b & _ & _ & ->)%remove_Ret. Qed.

(** After [removeContact] a bucket without repeated identifiers does not hold
    the identifier. *)
Lemma removeContact_gone (b : KBucket) (c : Contact) :
  NoDup (Id <$> contacts b) → Id c ∉ Id <$> contacts (removeContact b c).1.
Proof.
  intros Hnd. unfold removeContact, getFromList.
  destruct (scanList (contacts b) c) as [e|] eqn:Hscan; cbn [fst contacts].
  - destruct (scanList_Some _ _ _ Hscan) as [Hpos Hid].
    unfold Remove. rewrite list_fmap_delete.
    assert ((Id <$> contacts b) !! position e = Some (Id c)) as Hp
      by (by rewrite list_lookup_fmap, Hpos, <- Hid).
    rewrite (delete_Permutation _ _ _ Hp) in Hnd.
    by apply list.NoDup_cons in Hnd as [? _].
  - by apply scanList_None.
Qed.



(** X5. Removing twice is removing once: after [remove] returns on a
    reachable table, a second [remove] of the same contact returns and leaves
    the table as the first one left it. *)
Theorem remove_twice (rt rt' : RoutingTable) (c : Contact) :
  reachable rt → remove rt c = Ret rt' → remove rt' c = Ret rt'.
Proof.
  intros [_ Hbk _]%reachableBy_ok (i & b & Hi & Hslot & ->)%remove_Ret.
  pose proof (lookup_lt_Some _ _ _ Hslot) as Hlt.
  apply (remove_absent _ _ i (removeContact b c).1); cbn [owner kBuckets].
  - done.
  - by apply list_lookup_insert_eq.
  - apply removeContact_gone. by destruct (Hbk i b Hslot).
Qed.

Lemma remove_twice_witness :
  remove (tableOf [cLeft]) cOld = Ret (tableOf [cLeft]).
Proof.
  apply (remove_twice (tableOf [cLeft; cOld])).
  - eapply tableOf_reachable; [|vm_compute; reflexivity]. by repeat constructor.
  - vm_compute. reflexivity.
Defined.

(** X6. [remove] undoes an [add] that stored a new contact: when the bucket
    of the contact does not hold its identifier and has room (or does not
    exist yet), [remove] after [add] returns a table with the contents from
    before the [add]; it is the very same table when the bucket existed
    before, and otherwise the bucket that [add] created stays, empty. *)
Theorem add_then_remove (rt rt' : RoutingTable) (c : Contact) :
  Id c ∉ Id <$> contactsAt rt (GetKBucketFromAddr (owner rt) (Addr c)) →
  noEvictionNeeded rt c →
  add rt c = Ret rt' →
  ∃ rt'' : RoutingTable,
    remove rt' c = Ret rt'' ∧
    allContacts rt'' = allContacts rt ∧
    (∀ b, at_index (kBuckets rt) (GetKBucketFromAddr (owner rt) (Addr c))
          = Ret (Some b) → rt'' = rt) ∧
    (at_index (kBuckets rt) (GetKBucketFromAddr (owner rt) (Addr c)) = Ret None →
     at_index (kBuckets rt'') (GetKBucketFromAddr (owner rt) (Addr c))
     = Ret (Some (NewKBucket 20))).
Proof.
  intros Habs Hroom (i & slot & Hi & Hslot & ->)%add_Ret.
  pose proof (lookup_lt_Some _ _ _ Hslot) as Hlt.
  assert (at_index (kBuckets rt) (GetKBucketFromAddr (owner rt) (Addr c))
          = Ret slot) as Hat by (rewrite Hi; apply at_index_Ret; eauto).
  unfold contactsAt in Habs. rewrite Hat in Habs.
  set (b0 := default (NewKBucket 20) slot).
  assert (bucketContacts slot = contacts b0) as Hb0 by (by destruct slot).
  rewrite Hb0 in Habs.
  assert (addContact b0 c
          = (mkKBucket (c :: contacts b0) (bucket_k b0) (lruCache b0), true)) as Hadd.
  { unfold addContact, getFromList. rewrite (proj2 (scanList_None _ _) Habs).
    assert ((Z.of_nat (length (contacts b0)) <? bucket_k b0) = true) as ->; [|done].
    apply Z.ltb_lt. destruct slot as [b|]; [|by cbn].
    apply (Hroom b); [done|]. by apply scanList_None. }
  assert (removeContact (mkKBucket (c :: contacts b0) (bucket_k b0) (lruCache b0)) c
          = (b0, true)) as Hrem.
  { unfold removeContact, getFromList. cbn [contacts scanList].
    rewrite (proj2 (AreEqualContacts_true c c) eq_refl). cbn. by destruct b0. }
  rewrite Hadd. cbn [fst].
  eexists. split.
  - apply remove_Ret. eexists i, _. cbn [owner kBuckets numNeighbors].
    split; [done|]. split; [by apply list_lookup_insert_eq|]. reflexivity.
  - rewrite Hrem. cbn [fst]. rewrite list_insert_insert_eq. split; [|split].
    + unfold allContacts. cbn [kBuckets].
      rewrite (mjoin_bucketContacts_insert _ i _ Hlt).
      rewrite (mjoin_bucketContacts_split _ i slot Hslot).
      cbn [bucketContacts]. by rewrite Hb0.
    + intros b Hb. rewrite Hat in Hb. injection Hb as ->.
      subst b0. cbn [default]. rewrite list_insert_id by done. by destruct rt.
    + intros Hnone. rewrite Hat in Hnone. injection Hnone as ->.
      rewrite Hi. apply at_index_Ret. exists i. split; [done|].
      cbn [kBuckets]. by apply list_lookup_insert_eq.
Qed.

Lemma add_then_remove_witness :
  remove (tableOf [cLeft; cOld]) cOld = Ret (tableOf [cLeft]).
Proof.
  destruct (add_then_remove (tableOf [cLeft]) (tableOf [cLeft; cOld]) cOld)
    as (rt'' & Hrem & _ & Hsame & _).
  - intros H. vm_compute in H. apply elem_of_cons in H as [H|H]; [discriminate|].
    by apply elem_of_nil in H.
  - intros b Hb _. vm_compute in Hb. injection Hb as <-. vm_compute. reflexivity.
  - vm_compute. reflexivity.
  - rewrite Hrem. f_equal. apply (Hsame (mkKBucket [cLeft] 20 [])).
    vm_compute. reflexivity.
Defined.

(** X7. On a table filled with consistently routed contacts the lookup is
    exact: it returns a contact if and only if that contact is stored in the
    table under the identifier looked up. *)
Theorem lookup_exact (rt : RoutingTable) (id : Z) (c : Contact) :
  reachableBy consistent rt →
  ContactFromID rt id = Ret (Some c) ↔ c ∈ allContacts rt ∧ Id c = id.
Proof.
  intros Hrt. split.
  - unfold ContactFromID.
    destruct (at_index (kBuckets rt) _) as [slot| |] eqn:Hat; [|done..].
    apply at_index_Ret in Hat as (i & _ & Hslot).
    destruct slot as [b|]; [|done]. unfold getFromList.
    destruct (scanList (contacts b) (mkContact id zeroTCPAddr)) as [e|] eqn:Hscan;
      simpl; rewrite Hscan; [|done].
    intros [= <-]. destruct (scanList_Some _ _ _ Hscan) as [Hpos Hid].
    split; [|done]. unfold allContacts. apply list_elem_of_join.
    exists (contacts b). split; [by eapply list_elem_of_lookup_2|].
    apply list_elem_of_fmap. exists (Some b).
    split; [done|by eapply list_elem_of_lookup_2].
  - intros [Hc <-]. by apply ContactFromID_stored.
Qed.

Lemma lookup_exact_witness :
  ContactFromID (tableOf [cLeft; cOld]) (Id cOld) = Ret (Some cOld)
  ↔ cOld ∈ allContacts (tableOf [cLeft; cOld]) ∧ Id cOld = Id cOld.
Proof.
  apply lookup_exact.
  eapply tableOf_reachable; [|vm_compute; reflexivity]. by repeat constructor.
Defined.

(** ** Panics *)

Lemma at_index_out_of_range {A} (s : list A) (i : Z) :
  i < 0 ∨ Z.of_nat (length s) ≤ i → at_index s i = Panic IndexOutOfRange.
Proof.
  intros Hi. unfold at_index. destruct (Z.ltb_spec i 0) as [|Hnn]; [done|].
  rewrite lookup_ge_None_2; [done|lia].
Qed.


(** X8. On a reachable table a bucket index outside [0, 160) makes the
    operation panic with an index out of range: [add] and [remove] for the
    index of the address, the lookup and [findKNearestContacts] for the index
    of the identifier. *)
Theorem operations_out_of_range (rt : RoutingTable) (c : Contact) (id : Z) (fuel : nat) :
  reachable rt →
  GetKBucketFromAddr (owner rt) (Addr c) < 0 ∨ 160 ≤ GetKBucketFromAddr (owner rt) (Addr c) →
  GetKBucketFromID (owner rt) id < 0 ∨ 160 ≤ GetKBucketFromID (owner rt) id →
  add rt c = Panic IndexOutOfRange ∧
  remove rt c = Panic IndexOutOfRange ∧
  ContactFromID rt id = Panic IndexOutOfRange ∧
  findKNearestContacts fuel rt id = Panic IndexOutOfRange.
Proof.
  intros [Hlen _ _]%reachableBy_ok Ha Hi.
  assert (at_index (kBuckets rt) (GetKBucketFromAddr (owner rt) (Addr c))
          = Panic IndexOutOfRange) as Hata
    by (apply at_index_out_of_range; rewrite Hlen; lia).
  assert (at_index (kBuckets rt) (GetKBucketFromID (owner rt) id)
          = Panic IndexOutOfRange) as Hati
    by (apply at_index_out_of_range; rewrite Hlen; lia).
  rewrite findKNearestContacts_no_expansion.
  unfold add, remove, ContactFromID. by rewrite Hata, Hati.
Qed.

Lemma operations_out_of_range_witness :
  add (tableOf [cLeft]) cSelf = Panic IndexOutOfRange ∧
  remove (tableOf [cLeft]) cSelf = Panic IndexOutOfRange ∧
  ContactFromID (tableOf [cLeft]) 0 = Panic IndexOutOfRange ∧
  findKNearestContacts 0 (tableOf [cLeft]) 0 = Panic IndexOutOfRange.
Proof.
  apply operations_out_of_range.
  - eapply tableOf_reachable; [|vm_compute; reflexivity]. by repeat constructor.
  - left. vm_compute. reflexivity.
  - left. vm_compute. reflexivity.
Defined.



(** X10. [clear] leaves a table without slots: it holds no contact, and
    every later [add], [remove], lookup and [findKNearestContacts] panics
    with an index out of range, whatever the index. *)
Theorem clear_then_panic (rt : RoutingTable) (c : Contact) (id : Z) (fuel : nat) :
  allContacts (clear rt) = [] ∧
  add (clear rt) c = Panic IndexOutOfRange ∧
  remove (clear rt) c = Panic IndexOutOfRange ∧
  ContactFromID (clear rt) id = Panic IndexOutOfRange ∧
  findKNearestContacts fuel (clear rt) id = Panic IndexOutOfRange.
Proof.
  assert (∀ i : Z, at_index (kBuckets (clear rt)) i = Panic IndexOutOfRange) as Hat.
  { intros i. apply at_index_out_of_range. simpl. lia. }
  split; [done|].
  rewrite findKNearestContacts_no_expansion.
  unfold add, remove, ContactFromID. by rewrite !Hat.
Qed.

(** ** Snapshots *)




(** ** What the bucket operations report *)





(** ** The shape of reachable tables *)

Lemma reachable_numNeighbors (P : Node → Contact → Prop) (rt : RoutingTable) :
  reachableBy P rt → numNeighbors rt = 0.
Proof.
  induction 1 as [o|rt rt' c _ IH _ Hadd|rt rt' c _ IH Hrem]; [done|..].
  - by apply add_Ret in Hadd as (i & slot & _ & _ & ->).
  - by apply remove_Ret in Hrem as (i & b & _ & _ & ->).
Qed.

Lemma length_mjoin_le {A} (ls : list (list A)) (n : nat) :
  (∀ l, l ∈ ls → (length l ≤ n)%nat) → (length (mjoin ls) ≤ length ls * n)%nat.
Proof.
  induction ls as [|l ls IH]; intros Hn; simpl; [lia|].
  rewrite length_app.
  pose proof (Hn l (list_elem_of_here _ _)).
  assert (length (mjoin ls) ≤ length ls * n)%nat
    by (apply IH; intros l' Hl'; apply Hn; by apply list_elem_of_further).
  lia.
Qed.

(** X14. Every table reached by [add] and [remove] has 160 slots, the
    [numNeighbors] field is never counted up and stays 0, every bucket was
    built for 20 contacts, and every stored contact sits in the bucket that
    the owner computes from its address. *)
Theorem reachable_table_shape (rt : RoutingTable) :
  reachable rt →
  length (kBuckets rt) = 160%nat ∧
  numNeighbors rt = 0 ∧
  ∀ (i : nat) (b : KBucket) (c : Contact),
    kBuckets rt !! i = Some (Some b) →
    bucket_k b = 20 ∧
    (c ∈ contacts b → GetKBucketFromAddr (owner rt) (Addr c) = Z.of_nat i).
Proof.
  intros Hrt. pose proof (reachable_numNeighbors _ _ Hrt) as Hnum.
  apply reachableBy_ok in Hrt as [Hlen Hbk Hrouted].
  split; [done|]. split; [done|]. intros i b c Hb. split.
  - by destruct (Hbk i b Hb).
  - intros Hc. by destruct (Hrouted i b c Hb Hc).
Qed.

Lemma reachable_table_shape_witness :
  length (kBuckets (tableOf [cLeft; cOld])) = 160%nat ∧
  numNeighbors (tableOf [cLeft; cOld]) = 0 ∧
  GetKBucketFromAddr node0 (Addr cOld) = 128.
Proof.
  destruct (reachable_table_shape (tableOf [cLeft; cOld])) as (Hlen & Hnum & Hb).
  - eapply tableOf_reachable; [|vm_compute; reflexivity]. by repeat constructor.
  - split; [exact Hlen|]. split; [exact Hnum|].
    refine (proj2 (Hb 128%nat (mkKBucket [cOld; cLeft] 20 []) cOld _) _).
    + vm_compute. reflexivity.
    + apply elem_of_cons. by left.
Defined.

(** X15. A table reached by [add] and [remove] never holds more than
    160 × 20 = 3200 contacts. *)
Theorem reachable_table_capacity (rt : RoutingTable) :
  reachable rt → (length (allContacts rt) ≤ 160 * k)%nat.
Proof.
  intros [Hlen Hbk _]%reachableBy_ok. unfold allContacts.
  rewrite <- Hlen, <- (length_fmap bucketContacts).
  apply length_mjoin_le. intros l (slot & -> & Hslot)%list_elem_of_fmap.
  apply list_elem_of_lookup in Hslot as [i Hi].
  destruct slot as [b|]; simpl; [|unfold k; lia].
  by destruct (Hbk i b Hi).
Qed.

Lemma reachable_table_capacity_witness :
  (length (allContacts (tableOf (twenty ++ [late]))) ≤ 160 * k)%nat.
Proof.
  apply reachable_table_capacity.
  eapply tableOf_reachable; [|vm_compute; reflexivity]. by repeat constructor.
Defined.

(** ** The result of the nearest-contacts query *)



Lemma Uint64_small (d : Z) : 0 ≤ d < 2 ^ 64 → Uint64 d = d.
Proof.
  intros Hd. unfold Uint64. rewrite Z.abs_eq by lia.
  rewrite Z.land_ones by lia. apply Z.mod_small. lia.
Qed.

Lemma float64_small (u : Z) : 0 ≤ u < 2 ^ 53 → float64 u = u.
Proof.
  intros Hu. unfold float64.
  assert (Z.log2 u < 53) as Hlog.
  { destruct (decide (u = 0)) as [->|Hne]; [done|].
    apply Z.log2_lt_pow2; lia. }
  destruct (Z.leb_spec (Z.log2 u - 52) 0); [done|lia].
Qed.

Lemma narrowed_small (id : Z) (c : Contact) :
  0 ≤ distanceBetween id (Id c) < 2 ^ 53 →
  narrowed id c = distanceBetween id (Id c).
Proof.
  intros Hd. unfold narrowed.
  rewrite Uint64_small by lia. by apply float64_small.
Qed.

(** X17. When every returned entry is at a distance below 2^53 from the
    target, the narrowing loses nothing and the result of
    [findKNearestContacts] is in non-decreasing XOR distance to the target. *)
Theorem findKNearestContacts_sorted_when_small (fuel : nat) (rt : RoutingTable)
    (id : Z) (out : list Contact) :
  findKNearestContacts fuel rt id = Ret out →
  (∀ c, c ∈ out → 0 ≤ distanceBetween id (Id c) < 2 ^ 53) →
  sortedByDistance id out.
Proof.
  rewrite findKNearestContacts_no_expansion.
  destruct (at_index (kBuckets rt) _) as [slot| |]; simpl; [|done..].
  destruct (through slot getAllContacts) as [all| |]; simpl; [|done..].
  intros [= <-] Hsmall i j a b' Hij Ha Hb.
  pose proof (StronglySorted_lookup _ _ i j a b' (sort_Slice_narrowedLe id all)
                Hij Ha Hb) as Hle.
  unfold narrowedLe in Hle.
  rewrite !narrowed_small in Hle; [done|apply Hsmall..];
    by eapply list_elem_of_lookup_2.
Qed.

Lemma findKNearestContacts_sorted_when_small_witness :
  sortedByDistance midTarget (cMid :: replicate 19 zeroContact).
Proof.
  apply (findKNearestContacts_sorted_when_small 0 (tableOf [cLeft; cMid; cRight])).
  - vm_compute. reflexivity.
  - intros c Hc. apply elem_of_cons in Hc as [->|Hc].
    + vm_compute. split; [discriminate|reflexivity].
    + apply elem_of_replicate in Hc as [-> _].
      vm_compute. split; [discriminate|reflexivity].
Defined.

(** ** Identifiers from addresses *)

Lemma SetBytes_fold_bound (bs : list byte) (acc : Z) :
  0 ≤ acc →
  acc * 256 ^ Z.of_nat (length bs)
  ≤ fold_left (λ acc b, acc * 256 + Z.of_N (Byte.to_N b)) bs acc
  < (acc + 1) * 256 ^ Z.of_nat (length bs).
Proof.
  revert acc. induction bs as [|b bs IH]; intros acc Hacc.
  - simpl. lia.
  - cbn [fold_left length]. rewrite Nat2Z.inj_succ, Z.pow_succ_r by lia.
    pose proof (to_N_bounded b) as Hb.
    specialize (IH (acc * 256 + Z.of_N (Byte.to_N b))).
    assert (0 < 256 ^ Z.of_nat (length bs)) by (apply Z.pow_pos_nonneg; lia).
    nia.
Qed.

Lemma SetBytes_fold_inj (bs1 bs2 : list byte) (acc1 acc2 : Z) :
  length bs1 = length bs2 →
  fold_left (λ acc b, acc * 256 + Z.of_N (Byte.to_N b)) bs1 acc1
  = fold_left (λ acc b, acc * 256 + Z.of_N (Byte.to_N b)) bs2 acc2 →
  acc1 = acc2 ∧ bs1 = bs2.
Proof.
  revert bs2 acc1 acc2. induction bs1 as [|b1 bs1 IH]; intros [|b2 bs2] acc1 acc2;
    try done.
  cbn [fold_left length]. intros [= Hlen] Heq.
  destruct (IH _ _ _ Hlen Heq) as [Hacc ->].
  pose proof (to_N_bounded b1). pose proof (to_N_bounded b2).
  assert (acc1 = acc2 ∧ Byte.to_N b1 = Byte.to_N b2) as [-> Hb] by lia.
  split; [done|]. f_equal.
  apply (f_equal Byte.of_N) in Hb. rewrite !of_to_N in Hb. by injection Hb.
Qed.

(** X18. [NewContact] keeps the address and gives an identifier that is the
    digest read as a number: with a 20-byte digest it lies in [0, 2^160), and
    two addresses get the same identifier exactly when their digests are the
    same. *)
Theorem NewContact_identifier (digest : TCPAddr → list byte) (a1 a2 : TCPAddr) :
  length (digest a1) = 20%nat → length (digest a2) = 20%nat →
  Addr (NewContact digest a1) = a1 ∧
  0 ≤ Id (NewContact digest a1) < 2 ^ 160 ∧
  (AreEqualContacts (NewContact digest a1) (NewContact digest a2) = true
   ↔ digest a1 = digest a2).
Proof.
  intros H1 H2. split; [done|]. split.
  - pose proof (SetBytes_fold_bound (digest a1) 0 ltac:(lia)) as Hb.
    rewrite H1 in Hb. unfold NewContact, SetBytes. cbn [Id].
    change (2 ^ 160) with ((0 + 1) * 256 ^ Z.of_nat 20). lia.
  - rewrite AreEqualContacts_true. unfold NewContact, SetBytes. cbn [Id]. split.
    + intros Heq. by apply (SetBytes_fold_inj _ _ 0 0); [congruence|].
    + by intros ->.
Qed.

Lemma NewContact_identifier_witness :
  Addr (NewContact (FillBytes 20 ∘ Port) (mkTCPAddr [] 4000 EmptyString))
  = mkTCPAddr [] 4000 EmptyString ∧
  0 ≤ Id (NewContact (FillBytes 20 ∘ Port) (mkTCPAddr [] 4000 EmptyString)) < 2 ^ 160 ∧
  (AreEqualContacts
     (NewContact (FillBytes 20 ∘ Port) (mkTCPAddr [] 4000 EmptyString))
     (NewContact (FillBytes 20 ∘ Port) (mkTCPAddr [] 5000 EmptyString)) = true
   ↔ (FillBytes 20 ∘ Port) (mkTCPAddr [] 4000 EmptyString)
     = (FillBytes 20 ∘ Port) (mkTCPAddr [] 5000 EmptyString)).
Proof. apply NewContact_identifier; vm_compute; reflexivity. Defined.

(** ** A full bucket *)




(** ** The conversion to a double *)

(** Above 2^53 the conversion keeps 53 bits [q] and rounds on the rest [r]. *)
Lemma float64_large (u : Z) :
  0 < Z.log2 u - 52 →
  ∃ q r δ : Z,
    u = q * 2 ^ (Z.log2 u - 52) + r ∧
    0 ≤ r < 2 ^ (Z.log2 u - 52) ∧
    2 ^ 52 ≤ q < 2 ^ 53 ∧
    (δ = 0 ∨ δ = 1) ∧
    float64 u = (q + δ) * 2 ^ (Z.log2 u - 52) ∧
    (δ = 1 ↔ 2 ^ (Z.log2 u - 52 - 1) < r
             ∨ (r = 2 ^ (Z.log2 u - 52 - 1) ∧ Z.odd q = true)).
Proof.
  intros He.
  assert (0 < u) as Hu.
  { destruct (Z.lt_trichotomy u 0) as [Hn|[->|Hp]]; [|done..].
    rewrite Z.log2_nonpos in He by lia. lia. }
  set (e := Z.log2 u - 52) in *.
  assert (0 < 2 ^ e) as HP by (apply Z.pow_pos_nonneg; lia).
  pose proof (Z.log2_spec u Hu) as [Hlo Hhi].
  replace (Z.log2 u) with (52 + e) in Hlo by lia.
  replace (Z.succ (Z.log2 u)) with (53 + e) in Hhi by lia.
  rewrite Z.pow_add_r in Hlo, Hhi by lia.
  pose proof (Z.div_mod u (2 ^ e) ltac:(lia)) as Hdm.
  pose proof (Z.mod_pos_bound u (2 ^ e) HP) as Hr.
  set (q := u / 2 ^ e) in *. set (r := u mod 2 ^ e) in *.
  set (up := (2 ^ (e - 1) <? r) || ((r =? 2 ^ (e - 1)) && Z.odd q)).
  exists q, r, (if up then 1 else 0).
  split; [lia|]. split; [done|]. split; [nia|].
  split; [destruct up; auto|]. split.
  - unfold float64. fold e.
    destruct (Z.leb_spec e 0) as [|_]; [lia|].
    rewrite Z.shiftl_mul_pow2, Z.shiftr_div_pow2, Z.land_ones by lia.
    rewrite Z.shiftl_mul_pow2, Z.mul_1_l by lia.
    subst up q r.
    match goal with |- (if ?c then _ else _) * _ = _ => destruct c end.
    all: lia.
  - subst up.
    destruct (Z.ltb_spec (2 ^ (e - 1)) r) as [Hlt|Hge]; simpl.
    + split; [auto|done].
    + destruct (Z.eqb_spec r (2 ^ (e - 1))) as [Heq|Hne]; simpl.
      * destruct (Z.odd q); split; try done; [auto|intros [?|[_ ?]]; [lia|done]].
      * split; [done|]. intros [?|[? _]]; lia.
Qed.

Lemma float64_mono (u v : Z) : 0 ≤ u ≤ v → float64 u ≤ float64 v.
Proof.
  intros Huv.
  pose proof (Z.log2_le_mono u v ltac:(lia)) as Hlog.
  destruct (Z.le_gt_cases (Z.log2 v - 52) 0) as [Hv|Hv].
  - unfold float64.
    destruct (Z.leb_spec (Z.log2 u - 52) 0); [|lia].
    destruct (Z.leb_spec (Z.log2 v - 52) 0); lia.
  - destruct (float64_large v ltac:(lia))
      as (qv & rv & dv & Hveq & Hrv & Hqv & Hdv & Hfv & Hupv).
    assert (0 < 2 ^ (Z.log2 v - 52)) as HPv by (apply Z.pow_pos_nonneg; lia).
    destruct (Z.le_gt_cases (Z.log2 u - 52) 0) as [Hu|Hu].
    + assert (float64 u = u) as ->.
      { unfold float64. destruct (Z.leb_spec (Z.log2 u - 52) 0); [done|lia]. }
      assert (u < 2 ^ 53).
      { destruct (decide (u = 0)) as [->|Hne]; [done|].
        apply Z.log2_lt_pow2; lia. }
      rewrite Hfv.
      assert (2 ^ 1 ≤ 2 ^ (Z.log2 v - 52)) as HP1
        by (apply Z.pow_le_mono_r; lia).
      change (2 ^ 1) with 2 in HP1.
      revert HPv HP1 Hdv Hqv. generalize (2 ^ (Z.log2 v - 52)). intros P HPv HP1 Hdv Hqv.
      assert (2 ^ 53 ≤ qv * P) by nia.
      nia.
    + destruct (float64_large u ltac:(lia))
        as (qu & ru & du & Hueq & Hru & Hqu & Hdu & Hfu & Hupu).
      assert (0 < 2 ^ (Z.log2 u - 52)) as HPu by (apply Z.pow_pos_nonneg; lia).
      rewrite Hfu, Hfv.
      destruct (decide (Z.log2 u = Z.log2 v)) as [Heq|Hne].
      * rewrite Heq in *. set (P := 2 ^ (Z.log2 v - 52)) in *.
        assert (qu ≤ qv) by nia.
        destruct (decide (qu = qv)) as [->|Hq]; [|nia].
        assert (ru ≤ rv) by nia.
        assert (du ≤ dv); [|nia].
        destruct Hdu as [-> | ->]; [lia|].
        assert (dv = 1) as ->; [|lia].
        apply Hupv. destruct (proj1 Hupu eq_refl) as [?|[? ?]].
        -- left. lia.
        -- destruct (decide (rv = 2 ^ (Z.log2 v - 52 - 1))); [by right|left; lia].
      * assert (2 * 2 ^ (Z.log2 u - 52) ≤ 2 ^ (Z.log2 v - 52)).
        { replace (Z.log2 v - 52) with (Z.succ (Z.log2 u - 52) + (Z.log2 v - Z.log2 u - 1))
            by lia.
          rewrite Z.pow_add_r, Z.pow_succ_r by lia.
          assert (0 < 2 ^ (Z.log2 v - Z.log2 u - 1)) by (apply Z.pow_pos_nonneg; lia).
          nia. }
        nia.
Qed.

Lemma narrowed_mono (id : Z) (a b : Contact) :
  0 ≤ distanceBetween id (Id a) ≤ distanceBetween id (Id b) →
  distanceBetween id (Id b) < 2 ^ 64 →
  narrowed id a ≤ narrowed id b.
Proof.
  intros Hab Hb. unfold narrowed.
  rewrite !Uint64_small by lia. apply float64_mono. lia.
Qed.

(** X20. When every returned entry is at a distance below 2^64 from the
    target, the comparison closure never puts a farther contact before a
    nearer one on its own account: wherever the result of
    [findKNearestContacts] has a farther entry before a nearer one, the two
    distances convert to the same double. *)
Theorem findKNearestContacts_misorders_only_ties (fuel : nat) (rt : RoutingTable)
    (id : Z) (out : list Contact) (i j : nat) (a b : Contact) :
  findKNearestContacts fuel rt id = Ret out →
  (∀ c, c ∈ out → 0 ≤ distanceBetween id (Id c) < 2 ^ 64) →
  (i < j)%nat → out !! i = Some a → out !! j = Some b →
  distanceBetween id (Id b) < distanceBetween id (Id a) →
  narrowed id a = narrowed id b.
Proof.
  rewrite findKNearestContacts_no_expansion.
  destruct (at_index (kBuckets rt) _) as [slot| |]; simpl; [|done..].
  destruct (through slot getAllContacts) as [all| |]; simpl; [|done..].
  intros [= <-] Hsmall Hij Ha Hb Hfar.
  pose proof (StronglySorted_lookup _ _ i j a b (sort_Slice_narrowedLe id all)
                Hij Ha Hb) as Hle.
  unfold narrowedLe in Hle.
  pose proof (Hsmall a (list_elem_of_lookup_2 _ _ _ Ha)).
  pose proof (Hsmall b (list_elem_of_lookup_2 _ _ _ Hb)).
  pose proof (narrowed_mono id b a ltac:(lia) ltac:(lia)). lia.
Qed.

Lemma findKNearestContacts_misorders_only_ties_witness :
  narrowed tieTarget cTieFar = narrowed tieTarget cTieNear.
Proof.
  apply (findKNearestContacts_misorders_only_ties 0 (tableOf [cTieNear; cTieFar])
           tieTarget ([cTieFar; cTieNear] ++ replicate 18 zeroContact) 0 1).
  - vm_compute. reflexivity.
  - intros c Hc. apply elem_of_app in Hc as [Hc|Hc].
    + apply elem_of_cons in Hc as [->|Hc];
        [vm_compute; split; [discriminate|reflexivity]|].
      apply elem_of_cons in Hc as [->|Hc];
        [vm_compute; split; [discriminate|reflexivity]|].
      by apply elem_of_nil in Hc.
    + apply elem_of_replicate in Hc as [-> _].
      vm_compute. split; [discriminate|reflexivity].
  - lia.
  - reflexivity.
  - reflexivity.
  - vm_compute. reflexivity.
Defined.

(** ** Other identifiers are not disturbed *)









(** ** Order of the contacts of a bucket *)




(** ** Independent buckets and the new table *)

(** X23. Two [add] calls whose contacts go to different buckets can be
    swapped: both orders return, and return the same table. *)
Theorem add_commute (rt rt1 rt12 : RoutingTable) (c1 c2 : Contact) :
  GetKBucketFromAddr (owner rt) (Addr c1) ≠ GetKBucketFromAddr (owner rt) (Addr c2) →
  add rt c1 = Ret rt1 → add rt1 c2 = Ret rt12 →
  ∃ rt2 : RoutingTable, add rt c2 = Ret rt2 ∧ add rt2 c1 = Ret rt12.
Proof.
  intros Hne (i1 & slot1 & Hi1 & Hslot1 & ->)%add_Ret
         (i2 & slot2 & Hi2 & Hslot2 & ->)%add_Ret.
  cbn [owner kBuckets numNeighbors] in *.
  assert (i1 ≠ i2) as Hi by (intros ->; congruence).
  rewrite list_lookup_insert_ne in Hslot2 by done.
  eexists. split.
  - apply add_Ret. exists i2, slot2. eauto.
  - apply add_Ret. exists i1, slot1. cbn [owner kBuckets numNeighbors].
    split; [done|]. split; [by rewrite list_lookup_insert_ne|].
    by rewrite list_insert_insert_ne.
Qed.

Lemma add_commute_witness :
  ∃ rt2 : RoutingTable,
    add (NewRoutingTable node0) cMid = Ret rt2 ∧
    add rt2 cLeft = Ret (tableOf [cLeft; cMid]).
Proof.
  apply (add_commute (NewRoutingTable node0) (tableOf [cLeft])).
  - intros H. vm_compute in H. discriminate.
  - vm_compute. reflexivity.
  - vm_compute. reflexivity.
Defined.

(** X24. A table just built holds no contact. For an in-range bucket index
    the lookup finds nothing, while [remove] and [findKNearestContacts] panic
    with a nil dereference, as no bucket exists; the first [add] creates the
    bucket and stores the contact, which is then the only one in the table. *)
Theorem new_table_behaviour (o : Node) (c : Contact) (id : Z) (fuel : nat) :
  0 ≤ GetKBucketFromAddr o (Addr c) < 160 →
  0 ≤ GetKBucketFromID o id < 160 →
  allContacts (NewRoutingTable o) = [] ∧
  ContactFromID (NewRoutingTable o) id = Ret None ∧
  remove (NewRoutingTable o) c = Panic NilDereference ∧
  findKNearestContacts fuel (NewRoutingTable o) id = Panic NilDereference ∧
  ∃ rt' : RoutingTable,
    add (NewRoutingTable o) c = Ret rt' ∧ allContacts rt' = [c] ∧
    at_index (kBuckets rt') (GetKBucketFromAddr o (Addr c))
    = Ret (Some (mkKBucket [c] 20 [])).
Proof.
  intros Ha Hi.
  assert (∀ j : Z, 0 ≤ j < 160 →
            at_index (kBuckets (NewRoutingTable o)) j = Ret None
            ∧ kBuckets (NewRoutingTable o) !! Z.to_nat j = Some None) as Hnil.
  { intros j Hj.
    assert (kBuckets (NewRoutingTable o) !! Z.to_nat j = Some None) as Hl
      by (apply lookup_replicate_2; lia).
    split; [|done]. apply at_index_Ret. exists (Z.to_nat j). split; [lia|done]. }
  destruct (Hnil _ Ha) as [Hata Hla]. destruct (Hnil _ Hi) as [Hati _].
  assert (allContacts (NewRoutingTable o) = []) as Hempty.
  { unfold allContacts, NewRoutingTable. cbn [kBuckets].
    apply join_nil_2, Forall_fmap, Forall_replicate. done. }
  split; [done|].
  split; [by apply ContactFromID_nil_bucket|].
  split; [by apply remove_nil_bucket|].
  split; [by apply findKNearestContacts_nil_bucket|].
  eexists. split; [|split].
  - apply add_Ret. exists (Z.to_nat (GetKBucketFromAddr o (Addr c))), None.
    change (owner (NewRoutingTable o)) with o.
    split; [lia|]. split; [exact Hla|reflexivity].
  - unfold allContacts at 1. cbn [kBuckets].
    rewrite mjoin_bucketContacts_insert
      by (unfold NewRoutingTable; cbn [kBuckets]; rewrite length_replicate; lia).
    pose proof Hempty as Hsplit. unfold allContacts in Hsplit.
    rewrite (mjoin_bucketContacts_split _ _ _ Hla) in Hsplit.
    apply app_eq_nil in Hsplit as [-> [_ ->]%app_eq_nil]. done.
  - apply at_index_Ret. exists (Z.to_nat (GetKBucketFromAddr o (Addr c))).
    split; [lia|]. cbn [kBuckets].
    apply list_lookup_insert_eq.
    unfold NewRoutingTable. cbn [kBuckets]. rewrite length_replicate. lia.
Qed.

Lemma new_table_behaviour_witness :
  allContacts (NewRoutingTable node0) = [] ∧
  ContactFromID (NewRoutingTable node0) (Id cMid) = Ret None ∧
  remove (NewRoutingTable node0) cMid = Panic NilDereference ∧
  findKNearestContacts 0 (NewRoutingTable node0) (Id cMid) = Panic NilDereference ∧
  ∃ rt' : RoutingTable,
    add (NewRoutingTable node0) cMid = Ret rt' ∧ allContacts rt' = [cMid] ∧
    at_index (kBuckets rt') (GetKBucketFromAddr node0 (Addr cMid))
    = Ret (Some (mkKBucket [cMid] 20 [])).
Proof.
  apply new_table_behaviour; vm_compute; (split; [discriminate|reflexivity]).
Defined.
